(** * The build-pipeline engine of custom-cicd-server/main.go

    A shallow embedding of [triggerBuild], [checkStatus] and
    [ExecutePipeline] together with the package-level map [buildStatuses].

    The Go code is effectful: it spawns processes, prints to the standard
    logger and assigns into a global map, and it can panic on a slice index.
    All of that is threaded explicitly through a state-and-panic monad [M]. *)

From stdpp Require Import base gmap strings list fin_maps.

Open Scope string_scope.
Open Scope list_scope.

(** ** Data model (main.go, lines 73-92) *)

(** [type BuildStatus struct { ID, Status, Logs string }]. *)
Record BuildStatus := mkBuildStatus {
  ID : string;
  Status : string;
  Logs : string
}.

(** [type PipelineStep struct { Name string; Cmd []string }]. *)
Record PipelineStep := mkPipelineStep {
  Name : string;
  Cmd : list string
}.

(** [type PipelineConfig struct { Pipeline []PipelineStep }]. *)
Record PipelineConfig := mkPipelineConfig {
  Pipeline : list PipelineStep
}.

(** The [error] values that [CombinedOutput] of [exec.Cmd] hands back: the
    process could not be started, or it ran and exited with a non-zero
    status.  Each carries the text of its [Error()] method, which is all
    the program ever uses of it. *)
Inductive ExecError :=
| StartError (msg : string)
| ExitError (msg : string).

Definition error_text (e : ExecError) : string :=
  match e with
  | StartError msg => msg
  | ExitError msg => msg
  end.

(** The two run-time errors that line 193 can raise on an empty command
    vector: that of the index expression [step.Cmd[0]] and that of the
    slice expression [step.Cmd[1:]]. *)
Definition index_out_of_range : string :=
  "runtime error: index out of range [0] with length 0".

Definition slice_bounds_out_of_range : string :=
  "runtime error: slice bounds out of range [1:0]".

(** ** What runs the program

    [exec.Command(name, args...).CombinedOutput()] is a call out of the
    program.  Its behaviour is an interface: a type of worlds and a function
    that, given the world, the executable and its arguments, returns the new
    world, the merged stdout/stderr and the error (if any).

    The Go implementation is part of what runs the program too.  In
    [exec.Command(step.Cmd[0], step.Cmd[1:]...)] the language does not say
    which of the two operand expressions is evaluated first, so on an empty
    vector it is the implementation that settles which of the two run-time
    errors the panic carries: [bounds_panic]. *)
Class Runner := {
  World : Type;
  CombinedOutput : World -> string -> list string -> World * (string * option ExecError);
  bounds_panic : string;
  bounds_panic_spec :
    bounds_panic = index_out_of_range \/ bounds_panic = slice_bounds_out_of_range
}.

(** A Go function either returns or panics; a panic in any goroutine
    takes the process down, so nothing runs after it. *)
Inductive Outcome (A : Type) :=
| Returned (a : A)
| Panicked (msg : string).
Arguments Returned {A} a.
Arguments Panicked {A} msg.

(** What an HTTP handler sends back.  [HttpError] is [http.Error(w, msg,
    code)]; the other two are the JSON bodies the handlers encode, kept
    as the values they are encoded from. *)
Inductive Response :=
| HttpError (code : nat) (msg : string)
| BuildTriggered (id : string)
| StatusJSON (b : BuildStatus).

(** The closure [go func(id string) { ... }(buildID)] of [triggerBuild]:
    it captures the pipeline of the loaded configuration and its
    identifier. *)
Record Goroutine := mkGoroutine {
  go_id : string;
  go_steps : list PipelineStep
}.

(** The newline of the format string on line 198. *)
Definition nl : string := String (Ascii.ascii_of_nat 10) EmptyString.

(** ** Program state *)

Section Engine.
Context `{R : Runner}.

(** [buildStatuses] is the package-level map.  The other fields are what
    the program does to its environment: [world] is the state of the
    operating system, [spawned] the argument vectors handed to it through
    [CombinedOutput] so far (oldest first), [stderr] the lines printed
    through the [log] package, and [writes] the values assigned into
    [buildStatuses] so far (oldest first), which is the history of every
    record. *)
Record State := mkState {
  world : World;
  buildStatuses : gmap string BuildStatus;
  writes : list BuildStatus;
  spawned : list (list string);
  stderr : list string
}.

Definition M (A : Type) : Type := State -> Outcome A * State.

Definition ret {A} (a : A) : M A := fun st => (Returned a, st).

Definition bind {A B} (c : M A) (k : A -> M B) : M B :=
  fun st =>
    match c st with
    | (Returned a, st') => k a st'
    | (Panicked msg, st') => (Panicked msg, st')
    end.

Definition panic {A} (msg : string) : M A := fun st => (Panicked msg, st).

(** *** Primitive effects *)

(** [log.Printf] / [log.Println]: one more line on the logger. *)
Definition log_Printf (line : string) : M unit :=
  fun st =>
    (Returned tt,
     mkState (world st) (buildStatuses st) (writes st) (spawned st)
             (stderr st ++ [line])).

(** [buildStatuses[id] = b]: a plain map assignment, with no test of
    whether the key is present.  The assigned value is also recorded in
    [writes]. *)
Definition store_put (id : string) (b : BuildStatus) : M unit :=
  fun st =>
    (Returned tt,
     mkState (world st) (<[id := b]> (buildStatuses st)) (writes st ++ [b])
             (spawned st) (stderr st)).

(** [status, exists := buildStatuses[id]]. *)
Definition store_get (id : string) : M (option BuildStatus) :=
  fun st => (Returned (buildStatuses st !! id), st).

(** [exec.Command(step.Cmd[0], step.Cmd[1:]...)]: neither operand
    expression is guarded by a length test.  On an empty vector both are
    out of bounds, and the call panics with the run-time error of the one
    the implementation evaluates first. *)
Definition exec_Command (cmd : list string) : M (string * list string) :=
  match cmd with
  | [] => panic bounds_panic
  | name :: args => ret (name, args)
  end.

(** [cmd.CombinedOutput()]: hands the command to the operating system. *)
Definition cmd_CombinedOutput (c : string * list string) : M (string * option ExecError) :=
  fun st =>
    let '(w', r) := CombinedOutput (world st) (fst c) (snd c) in
    (Returned r,
     mkState w' (buildStatuses st) (writes st)
             (spawned st ++ [fst c :: snd c]) (stderr st)).

Notation "'let*' x ':=' c 'in' k" := (bind c (fun x => k))
  (at level 10, x name, c at level 100, k at level 200).
Notation "'exec' c 'in' k" := (bind c (fun _ => k))
  (at level 10, c at level 100, k at level 200).

(** *** ExecutePipeline (main.go, lines 189-218) *)

(** The record written when a step fails (lines 199-203). *)
Definition failed_record (buildID : string) (step : PipelineStep) (output : string) : BuildStatus :=
  {| ID := buildID;
     Status := "Failed";
     Logs := "Step " +:+ Name step +:+ " failed: " +:+ output |}.

(** The record written when a step succeeds (lines 211-215). *)
Definition progress_record (buildID : string) (step : PipelineStep) : BuildStatus :=
  {| ID := buildID;
     Status := "In Progress";
     Logs := "Step " +:+ Name step +:+ " completed successfully" |}.

(** One iteration of [for _, step := range steps].  [Some err] stands for
    [return err] out of the loop, [None] for falling through to the next
    iteration. *)
Definition step_body (buildID : string) (step : PipelineStep) : M (option ExecError) :=
  exec log_Printf ("Executing step: " +:+ Name step) in
  let* cmd := exec_Command (Cmd step) in
  let* r := cmd_CombinedOutput cmd in
  match snd r with
  | Some err =>
      exec log_Printf ("Error in step " +:+ Name step +:+ ": " +:+ error_text err
                  +:+ nl +:+ "Output: " +:+ fst r) in
      exec store_put buildID (failed_record buildID step (fst r)) in
      ret (Some err)
  | None =>
      exec log_Printf ("Output of step " +:+ Name step +:+ ": " +:+ fst r) in
      exec store_put buildID (progress_record buildID step) in
      ret None
  end.

(** [ExecutePipeline] returns [nil] ([None]) when the loop runs off the end
    of [steps], and the error of the first failing step otherwise. *)
Fixpoint ExecutePipeline (steps : list PipelineStep) (buildID : string) : M (option ExecError) :=
  match steps with
  | [] => ret None
  | step :: rest =>
      let* r := step_body buildID step in
      match r with
      | Some err => ret (Some err)
      | None => ExecutePipeline rest buildID
      end
  end.

(** *** triggerBuild (main.go, lines 109-149) *)

(** [status := "Success"; if err != nil { status = "Failed" }]. *)
Definition final_status (err : option ExecError) : string :=
  match err with
  | Some _ => "Failed"
  | None => "Success"
  end.

(** The record of lines 136-140. *)
Definition final_record (id : string) (err : option ExecError) : BuildStatus :=
  {| ID := id;
     Status := final_status err;
     Logs := "Pipeline completed with status: " +:+ final_status err |}.

(** The body of the goroutine (lines 130-141). *)
Definition run_goroutine (g : Goroutine) : M unit :=
  let* err := ExecutePipeline (go_steps g) (go_id g) in
  store_put (go_id g) (final_record (go_id g) err).

(** The placeholder of lines 123-127. *)
Definition placeholder_record (buildID : string) : BuildStatus :=
  {| ID := buildID; Status := "In Progress"; Logs := "" |}.

(** The handler itself.  [loaded] is what [LoadConfig("config.yaml")]
    returned ([None] for a non-nil error) and [uuid] what [generateUUID()]
    returns; both come from outside the engine.  The handler does not wait
    for the goroutine it starts: it hands it back next to the response. *)
Definition triggerBuild (loaded : option PipelineConfig) (uuid : string) : M (Response * option Goroutine) :=
  exec log_Printf "Triggering build..." in
  match loaded with
  | None => ret (HttpError 500 "Failed to load pipeline configuration", None)
  | Some config =>
      let buildID := uuid in
      exec store_put buildID (placeholder_record buildID) in
      ret (BuildTriggered buildID, Some (mkGoroutine buildID (Pipeline config)))
  end.

(** *** checkStatus (main.go, lines 152-164) *)
Definition checkStatus (buildID : string) : M Response :=
  let* r := store_get buildID in
  match r with
  | None => ret (HttpError 404 "Build ID not found")
  | Some status => ret (StatusJSON status)
  end.

(** A whole build, run with nothing else in between: the handler, then
    the goroutine it started, to its end. *)
Definition run_build (loaded : option PipelineConfig) (uuid : string) : M Response :=
  let* r := triggerBuild loaded uuid in
  match snd r with
  | Some g => exec run_goroutine g in ret (fst r)
  | None => ret (fst r)
  end.

(** ** Reading a record's log

    [Logs] is one Go [string], and every assignment into the map builds a
    whole new [BuildStatus]: a record holds the text of its latest write
    and nothing of the earlier ones.  As a sequence of entries the field is
    therefore empty (the placeholder) or a single entry. *)
Definition log_entries (b : BuildStatus) : list string :=
  if decide (Logs b = "") then [] else [Logs b].

(** [mentions needle hay]: [needle] occurs in [hay] (as
    [strings.Contains(hay, needle)] would tell). *)
Fixpoint mentions (needle hay : string) : bool :=
  String.prefix needle hay ||
  match hay with
  | EmptyString => false
  | String _ hay' => mentions needle hay'
  end.

(** ** Hypotheses on the environment

    [run_all w steps] follows the operating system through [steps] as long
    as every one of them has an executable to index and comes back with a
    nil error; it gives the world reached at the end, and [None] as soon as
    a step would fail or could not be started at all. *)
Fixpoint run_all (w : World) (steps : list PipelineStep) : option World :=
  match steps with
  | [] => Some w
  | step :: rest =>
      match Cmd step with
      | [] => None
      | name :: args =>
          match CombinedOutput w name args with
          | (w', (_, None)) => run_all w' rest
          | (_, (_, Some _)) => None
          end
      end
  end.

(** [fails_with w step output err w']: in world [w] the command of [step]
    comes back with the non-nil error [err], having printed [output]. *)
Definition fails_with (w : World) (step : PipelineStep) (output : string) (err : ExecError) (w' : World) : Prop :=
  exists name args,
    Cmd step = name :: args /\
    CombinedOutput w name args = (w', (output, Some err)).

(** The map after the assignments [ws], all under the key [id]. *)
Definition put_all (id : string) (m : gmap string BuildStatus) (ws : list BuildStatus) : gmap string BuildStatus :=
  foldl (fun m b => <[id := b]> m) m ws.

(** ** The server as interleaved goroutines

    [run_build] runs a build with nothing in between.  In the server the
    goroutine of a build runs next to the handlers and to the goroutines of
    other builds.  Each goroutine is cut at its assignments into
    [buildStatuses]: one step of a goroutine is one loop iteration of
    [ExecutePipeline] (the same [step_body]), or the leaving of the loop,
    or the final assignment of lines 136-140.  Map operations are taken as
    indivisible. *)
Inductive PC :=
| InLoop (rest : list PipelineStep)
| AfterLoop (err : option ExecError).

Record Task := mkTask {
  task_id : string;
  task_pc : PC
}.

Definition spawn (g : Goroutine) : Task :=
  mkTask (go_id g) (InLoop (go_steps g)).

(** One step of a goroutine; [None] when it has run off its end. *)
Definition task_step (t : Task) : M (option Task) :=
  match task_pc t with
  | InLoop [] => ret (Some (mkTask (task_id t) (AfterLoop None)))
  | InLoop (step :: rest) =>
      let* r := step_body (task_id t) step in
      match r with
      | Some err => ret (Some (mkTask (task_id t) (AfterLoop (Some err))))
      | None => ret (Some (mkTask (task_id t) (InLoop rest)))
      end
  | AfterLoop err =>
      exec store_put (task_id t) (final_record (task_id t) err) in
      ret None
  end.

(** A goroutine run on its own for at most [fuel] steps. *)
Fixpoint run_task (fuel : nat) (t : Task) : M (option Task) :=
  match fuel with
  | O => ret (Some t)
  | S fuel' =>
      let* r := task_step t in
      match r with
      | Some t' => run_task fuel' t'
      | None => ret None
      end
  end.

Record Server := mkServer {
  proc : State;
  goroutines : list Task
}.

(** What can happen next: a POST /build (with what [LoadConfig] and
    [generateUUID] give this time), a GET /status/{id}, or the scheduler
    letting the [i]-th live goroutine take a step. *)
Inductive Event :=
| Trigger (loaded : option PipelineConfig) (uuid : string)
| Query (id : string)
| Sched (i : nat).

(** [serve ev sv]: the server after [ev], with the response if [ev] was a
    request; [None] when the process died of a panic. *)
Definition serve (ev : Event) (sv : Server) : option (Server * option Response) :=
  match ev with
  | Trigger loaded uuid =>
      match triggerBuild loaded uuid (proc sv) with
      | (Returned (resp, g), st') =>
          Some (mkServer st' (goroutines sv ++ option_list (spawn <$> g)), Some resp)
      | (Panicked _, _) => None
      end
  | Query id =>
      match checkStatus id (proc sv) with
      | (Returned resp, st') => Some (mkServer st' (goroutines sv), Some resp)
      | (Panicked _, _) => None
      end
  | Sched i =>
      match goroutines sv !! i with
      | None => Some (sv, None)
      | Some t =>
          match task_step t (proc sv) with
          | (Returned (Some t'), st') =>
              Some (mkServer st' (<[i := t']> (goroutines sv)), None)
          | (Returned None, st') =>
              Some (mkServer st' (delete i (goroutines sv)), None)
          | (Panicked _, _) => None
          end
      end
  end.

Fixpoint serve_all (evs : list Event) (sv : Server) : option Server :=
  match evs with
  | [] => Some sv
  | ev :: evs' =>
      match serve ev sv with
      | Some (sv', _) => serve_all evs' sv'
      | None => None
      end
  end.

(** The process as [main] starts it: [buildStatuses = make(map...)], no
    goroutine, no command started yet, and the one line [main] prints
    before it listens. *)
Definition boot (w : World) : Server :=
  mkServer (mkState w ∅ [] [] ["Starting CI/CD server on port 8080"]) [].

(** The identifiers that the [Trigger] events of [evs] stored a
    placeholder under. *)
Fixpoint triggered_ids (evs : list Event) : list string :=
  match evs with
  | [] => []
  | Trigger (Some _) uuid :: evs' => uuid :: triggered_ids evs'
  | _ :: evs' => triggered_ids evs'
  end.

(** The link between the map and the identifiers handed out so far: the
    map has a record exactly under those identifiers, and every live
    goroutine works for one of them. *)
Definition store_tracks (sv : Server) (ids : list string) : Prop :=
  (forall id, is_Some (buildStatuses (proc sv) !! id) <-> id ∈ ids) /\
  Forall (fun t => task_id t ∈ ids) (goroutines sv).

(** The statuses assigned so far to the record of [id], oldest first.
    Every assignment in the program stores a record under its own [ID]. *)
Definition history (st : State) (id : string) : list string :=
  map Status (filter (fun b => ID b = id) (writes st)).

(** The history of a record whose goroutine is at [pc]: a non-empty run of
    In Progress, followed by Failed once [ExecutePipeline] has returned an
    error. *)
Definition live_history (pc : PC) (h : list string) : Prop :=
  match pc with
  | AfterLoop (Some _) => exists n, h = replicate (S n) "In Progress" ++ ["Failed"]
  | _ => exists n, h = replicate (S n) "In Progress"
  end.

(** The history of a record no goroutine works on: nothing was ever
    assigned, or the build is over. *)
Definition ended_history (h : list string) : Prop :=
  h = [] \/
  exists n,
    h = replicate (S n) "In Progress" ++ ["Success"] \/
    h = replicate (S n) "In Progress" ++ ["Failed"; "Failed"].

Definition histories_ok (sv : Server) (ids : list string) : Prop :=
  store_tracks sv ids /\
  NoDup (task_id <$> goroutines sv) /\
  Forall (fun b => ID b ∈ ids) (writes (proc sv)) /\
  (forall t, t ∈ goroutines sv ->
     live_history (task_pc t) (history (proc sv) (task_id t))) /\
  (forall id, id ∉ (task_id <$> goroutines sv) ->
     ended_history (history (proc sv) id)).

(** ** What a step of the program does to the map

    [puts id st st']: between [st] and [st'] the program has made zero or
    more assignments into [buildStatuses], all under the key [id], each of
    a record whose [ID] is [id] and whose [Status] is one of the three
    literals of main.go. *)
Definition known_status (s : string) : Prop :=
  s = "In Progress" \/ s = "Success" \/ s = "Failed".

Definition puts (id : string) (st st' : State) : Prop :=
  exists ws,
    writes st' = writes st ++ ws /\
    buildStatuses st' = put_all id (buildStatuses st) ws /\
    Forall (fun b => ID b = id /\ known_status (Status b)) ws.

(** The map holds, under every key, the latest record assigned for it. *)
Definition latest_ok (st : State) : Prop :=
  forall id,
    buildStatuses st !! id = last (filter (fun b => ID b = id) (writes st)).

(** Every record in the map carries its own key and a known status. *)
Definition records_ok (st : State) : Prop :=
  forall id b,
    buildStatuses st !! id = Some b -> ID b = id /\ known_status (Status b).

(** The key an event may assign under, if any: the identifier of the
    build it triggers, or that of the goroutine it lets run. *)
Definition event_key (sv : Server) (ev : Event) : option string :=
  match ev with
  | Trigger (Some _) uuid => Some uuid
  | Trigger None _ => None
  | Query _ => None
  | Sched i => task_id <$> (goroutines sv !! i)
  end.

End Engine.

(** ** Phases

    The handlers only ever store three literal strings in [Status].  Read
    as the phases of a build, with the fourth phase the JSON field may
    name, they are: *)
Inductive Phase := Pending | InProgress | Success | Failed.

Definition phase_of_status (s : string) : option Phase :=
  if decide (s = "Pending") then Some Pending
  else if decide (s = "In Progress") then Some InProgress
  else if decide (s = "Success") then Some Success
  else if decide (s = "Failed") then Some Failed
  else None.

(** One write after another may keep the phase, or move it one way along
    Pending, InProgress, (Success | Failed). *)
Definition phase_step (p q : Phase) : bool :=
  match p, q with
  | Pending, (Pending | InProgress) => true
  | InProgress, (InProgress | Success | Failed) => true
  | Success, Success => true
  | Failed, Failed => true
  | _, _ => false
  end.

Definition status_step (s s' : string) : bool :=
  match phase_of_status s, phase_of_status s' with
  | Some p, Some q => phase_step p q
  | _, _ => false
  end.

(** A sequence of [Status] values, oldest first, is a phase chain when
    each value is a phase and each value follows the one before it by
    [phase_step]. *)
Fixpoint phase_chain (ss : list string) : bool :=
  match ss with
  | [] => true
  | s :: tl =>
      match tl with
      | [] => bool_decide (is_Some (phase_of_status s))
      | s' :: _ => status_step s s' && phase_chain tl
      end
  end.

(** What a build assigns after its run of In Progress records: nothing
    (it stopped on a panic), the Success summary, or the Failed record of
    the step followed by the Failed summary. *)
Definition goroutine_tail (tail : list string) : Prop :=
  tail = [] \/ tail = ["Success"] \/ tail = ["Failed"; "Failed"].

Definition terminal_status (s : string) : bool :=
  bool_decide (s = "Success") || bool_decide (s = "Failed").

(** ** A small operating system to run examples on

    The world is the list of files created so far.  [true] and [false] are
    the usual utilities, [touch] creates its arguments, one [sh -c] script
    prints a line and exits with status 1, and any other executable is
    missing, so that starting it fails with the error of [exec.LookPath].
    The Go implementation is the standard one, whose panic on an empty
    command vector is that of the slice expression. *)
Definition dq : string := String (Ascii.ascii_of_nat 34) EmptyString.

Definition not_found (name : string) : ExecError :=
  StartError ("exec: " +:+ dq +:+ name +:+ dq +:+ ": executable file not found in $PATH").

Definition sh_CombinedOutput (files : list string) (name : string) (args : list string) : list string * (string * option ExecError) :=
  if decide (name = "true") then (files, ("", None))
  else if decide (name = "false") then (files, ("", Some (ExitError "exit status 1")))
  else if decide (name = "touch") then (files ++ args, ("", None))
  else if decide (name = "sh" /\ args = ["-c"; "echo boom; exit 1"])
       then (files, ("boom" +:+ nl, Some (ExitError "exit status 1")))
  else (files, ("", Some (not_found name))).

Definition sh_runner : Runner :=
  {| World := list string;
     CombinedOutput := sh_CombinedOutput;
     bounds_panic := slice_bounds_out_of_range;
     bounds_panic_spec := or_intror eq_refl |}.

(** What [false] and the failing script come back with. *)
Definition exit1 : ExecError := ExitError "exit status 1".

(** The three-step pipeline whose test step fails (its deploy step would
    leave a file behind), and the one-step pipeline that succeeds. *)
Definition compile_step : PipelineStep := mkPipelineStep "compile" ["true"].
Definition test_step : PipelineStep := mkPipelineStep "test" ["false"].
Definition deploy_step : PipelineStep := mkPipelineStep "deploy" ["touch"; "deployed"].

Definition compile_test_deploy : list PipelineStep :=
  [compile_step; test_step; deploy_step].

Definition build_only : list PipelineStep :=
  [ mkPipelineStep "build" ["true"] ].

(** A step that prints before it fails, a step whose executable is not
    there, and a step with no command at all. *)
Definition noisy_step : PipelineStep :=
  mkPipelineStep "test" ["sh"; "-c"; "echo boom; exit 1"].

Definition noisy_test : list PipelineStep := [noisy_step].

Definition missing_tool : list PipelineStep :=
  [ mkPipelineStep "lint" ["golint"; "./..."] ].

Definition no_command : list PipelineStep :=
  [ mkPipelineStep "noop" [] ].

(** A step with no command behind a step that fails. *)
Definition fail_then_empty : list PipelineStep :=
  [ test_step; mkPipelineStep "noop" [] ].

(** The process right after start, on the example system with no file. *)
Definition fresh : @State sh_runner :=
  @mkState sh_runner [] ∅ [] [] [].

(** The process after one build of [build_only] under the identifier b1
    has run to its end. *)
Definition finished : @State sh_runner :=
  snd (run_build (Some (mkPipelineConfig build_only)) "b1" fresh).

(** A session: a build of [compile_test_deploy] is triggered and queried
    while its goroutine is stepped to its end. *)
Definition session : list Event :=
  [ Trigger (Some (mkPipelineConfig compile_test_deploy)) "b1";
    Query "b1"; Sched 0; Query "b1"; Sched 0; Sched 0; Query "b1";
    Trigger None "b2"; Query "b2" ].

(** Its beginning, up to the first step of the goroutine, and a
    continuation in which another build is triggered and run. *)
Definition session_start : list Event :=
  [ Trigger (Some (mkPipelineConfig compile_test_deploy)) "b1"; Sched 0 ].

Definition session_more : list Event :=
  [ Trigger (Some (mkPipelineConfig build_only)) "b3";
    Sched 0; Query "b1"; Sched 0; Sched 0; Query "b3" ].

(** Two builds are triggered, the second with a step that has no
    command, and the goroutine of the second is let run. *)
Definition crash_session : list Event :=
  [ Trigger (Some (mkPipelineConfig build_only)) "b1";
    Trigger (Some (mkPipelineConfig no_command)) "b2";
    Sched 1 ].

(** The server at the end of [session] and of [session_start]. *)
Definition after_session : @Server sh_runner :=
  default (boot (R := sh_runner) []) (serve_all session (boot (R := sh_runner) [])).

Definition during_session : @Server sh_runner :=
  default (boot (R := sh_runner) []) (serve_all session_start (boot (R := sh_runner) [])).

(** * Properties *)

Section EngineFacts.
Context `{R : Runner}.

Implicit Types (st : State) (steps pre post : list PipelineStep) (step : PipelineStep).
Implicit Types (id buildID : string) (ws : list BuildStatus) (ids : list string).

Ltac unfold_m :=
  unfold bind, ret, panic, log_Printf, store_put, store_get,
    exec_Command, cmd_CombinedOutput.

(** ** Occurrence of a string in another *)

Lemma prefix_app (a b : string) : String.prefix a (a +:+ b) = true.
Proof.
  induction a as [|c a IH]; simpl.
  - by destruct b.
  - destruct (Ascii.ascii_dec c c); [done | congruence].
Qed.

Lemma prefix_mentions (a h : string) :
  String.prefix a h = true -> mentions a h = true.
Proof. destruct h; intros Hp; cbn [mentions]; rewrite Hp; done. Qed.

Lemma mentions_here (a b : string) : mentions a (a +:+ b) = true.
Proof. apply prefix_mentions, prefix_app. Qed.

Lemma mentions_self (a : string) : mentions a a = true.
Proof.
  apply prefix_mentions. induction a as [|c a IH]; simpl; [done |].
  destruct (Ascii.ascii_dec c c); [done | congruence].
Qed.

Lemma mentions_app_r (needle a b : string) :
  mentions needle b = true -> mentions needle (a +:+ b) = true.
Proof.
  intros H. induction a as [|c a IH]; simpl; [done |].
  rewrite IH. apply orb_true_r.
Qed.

(** Both records a step writes name the step. *)
Lemma failed_record_mentions id step output :
  mentions (Name step) (Logs (failed_record id step output)) = true.
Proof. cbn [Logs failed_record]. apply mentions_app_r, mentions_here. Qed.

Lemma progress_record_mentions id step :
  mentions (Name step) (Logs (progress_record id step)) = true.
Proof. cbn [Logs progress_record]. apply mentions_app_r, mentions_here. Qed.

(** The record a failing step writes shows what the command printed. *)
Lemma failed_record_shows_output id step output :
  mentions output (Logs (failed_record id step output)) = true.
Proof.
  cbn [Logs failed_record]. do 3 apply mentions_app_r. apply mentions_self.
Qed.

(** ** Assignments under one key *)

Lemma put_all_app id (m : gmap string BuildStatus) ws ws' :
  put_all id m (ws ++ ws') = put_all id (put_all id m ws) ws'.
Proof. apply foldl_app. Qed.

Lemma put_all_other id id' (m : gmap string BuildStatus) ws :
  id <> id' -> put_all id m ws !! id' = m !! id'.
Proof.
  intros Hne. revert m. induction ws as [|b ws IH]; intros m; simpl; [done |].
  rewrite IH. by apply lookup_insert_ne.
Qed.

Lemma put_all_last id (m : gmap string BuildStatus) ws b :
  put_all id m (ws ++ [b]) !! id = Some b.
Proof. rewrite put_all_app. simpl. apply lookup_insert_eq. Qed.

Lemma put_all_dom id (m : gmap string BuildStatus) ws id' :
  is_Some (m !! id') -> is_Some (put_all id m ws !! id').
Proof.
  revert m. induction ws as [|b ws IH]; intros m Hm; simpl; [done |].
  apply IH. rewrite lookup_insert. case_decide; [by eexists | done].
Qed.

(** ** One loop iteration *)

Lemma step_body_ok id step st name args w' output :
  Cmd step = name :: args ->
  CombinedOutput (world st) name args = (w', (output, None)) ->
  step_body id step st =
    (Returned None,
     mkState w' (<[id := progress_record id step]> (buildStatuses st))
       (writes st ++ [progress_record id step])
       (spawned st ++ [Cmd step])
       ((stderr st ++ ["Executing step: " +:+ Name step])
                  ++ ["Output of step " +:+ Name step +:+ ": " +:+ output])).
Proof.
  intros HC HO. unfold step_body. rewrite HC. unfold_m. simpl.
  rewrite HO. simpl. done.
Qed.

Lemma step_body_fail id step st w' output err :
  fails_with (world st) step output err w' ->
  step_body id step st =
    (Returned (Some err),
     mkState w' (<[id := failed_record id step output]> (buildStatuses st))
       (writes st ++ [failed_record id step output])
       (spawned st ++ [Cmd step])
       ((stderr st ++ ["Executing step: " +:+ Name step])
                  ++ ["Error in step " +:+ Name step +:+ ": " +:+ error_text err
                      +:+ nl +:+ "Output: " +:+ output])).
Proof.
  intros (name & args & HC & HO). unfold step_body. rewrite HC. unfold_m. simpl.
  rewrite HO. simpl. done.
Qed.

Lemma step_body_panic id step st :
  Cmd step = [] ->
  step_body id step st =
    (Panicked bounds_panic,
     mkState (world st) (buildStatuses st) (writes st) (spawned st)
       (stderr st ++ ["Executing step: " +:+ Name step])).
Proof. intros HC. unfold step_body. rewrite HC. done. Qed.

(** ** The loop of ExecutePipeline *)

(** Over a prefix of steps that all come back with a nil error, the loop
    assigns one progress record per step, starts the commands in the order
    of the steps, and goes on with what follows the prefix. *)
Lemma ExecutePipeline_prefix pre id :
  forall st w1,
    run_all (world st) pre = Some w1 ->
    exists st1,
      world st1 = w1 /\
      buildStatuses st1 = put_all id (buildStatuses st) (map (progress_record id) pre) /\
      writes st1 = writes st ++ map (progress_record id) pre /\
      spawned st1 = spawned st ++ map Cmd pre /\
      forall rest, ExecutePipeline (pre ++ rest) id st = ExecutePipeline rest id st1.
Proof.
  induction pre as [|step pre IH]; intros st w1 Hrun.
  - injection Hrun as <-. exists st. cbn [map put_all foldl].
    rewrite !app_nil_r. done.
  - cbn [run_all] in Hrun.
    destruct (Cmd step) as [|name args] eqn:HC; [done |].
    destruct (CombinedOutput (world st) name args) as [w' [output [err|]]] eqn:HO;
      [done |].
    pose proof (step_body_ok id step st name args w' output HC HO) as Hstep.
    set (st' := mkState w' (<[id := progress_record id step]> (buildStatuses st))
                  (writes st ++ [progress_record id step])
                  (spawned st ++ [Cmd step])
                  ((stderr st ++ ["Executing step: " +:+ Name step])
                     ++ ["Output of step " +:+ Name step +:+ ": " +:+ output])) in *.
    destruct (IH st' w1 Hrun) as (st1 & Hw & Hm & Hws & Hsp & Hrest).
    exists st1. repeat split.
    + done.
    + rewrite Hm. done.
    + rewrite Hws. cbn [writes st' map]. by rewrite <- app_assoc.
    + rewrite Hsp. cbn [spawned st' map]. by rewrite <- app_assoc.
    + intros rest. rewrite <- Hrest. cbn [app ExecutePipeline].
      unfold bind at 1. rewrite Hstep. done.
Qed.

(** Every pipeline run falls under one of three cases: all steps come back
    with a nil error; or a first step fails after a prefix of such steps;
    or a step with no command is reached after such a prefix. *)
Lemma run_all_cases steps :
  forall w,
    is_Some (run_all w steps) \/
    exists pre step post w1,
      steps = pre ++ step :: post /\
      run_all w pre = Some w1 /\
      ((exists output err w2, fails_with w1 step output err w2) \/ Cmd step = []).
Proof.
  induction steps as [|s steps IH]; intros w.
  - left. by eexists.
  - destruct (Cmd s) as [|name args] eqn:HC.
    { right. exists [], s, steps, w. auto. }
    destruct (CombinedOutput w name args) as [w' [output [err|]]] eqn:HO.
    { right. exists [], s, steps, w. repeat split.
      left. exists output, err, w', name, args. done. }
    destruct (IH w') as [Hok | (pre & step & post & w1 & -> & Hpre & Hstop)].
    + left. cbn [run_all]. by rewrite HC, HO.
    + right. exists (s :: pre), step, post, w1. repeat split; [| done].
      cbn [run_all]. by rewrite HC, HO.
Qed.

Lemma ExecutePipeline_all_ok steps id st w1 :
  run_all (world st) steps = Some w1 ->
  exists st1,
    ExecutePipeline steps id st = (Returned None, st1) /\
    world st1 = w1 /\
    buildStatuses st1 = put_all id (buildStatuses st) (map (progress_record id) steps) /\
    writes st1 = writes st ++ map (progress_record id) steps /\
    spawned st1 = spawned st ++ map Cmd steps.
Proof.
  intros Hrun.
  destruct (ExecutePipeline_prefix steps id st w1 Hrun)
    as (st1 & Hw & Hm & Hws & Hsp & Hrest).
  exists st1. specialize (Hrest []). rewrite app_nil_r in Hrest.
  rewrite Hrest. done.
Qed.

Lemma ExecutePipeline_fail pre step post id st w1 output err w2 :
  run_all (world st) pre = Some w1 ->
  fails_with w1 step output err w2 ->
  exists st2,
    ExecutePipeline (pre ++ step :: post) id st = (Returned (Some err), st2) /\
    world st2 = w2 /\
    buildStatuses st2 =
      put_all id (buildStatuses st)
        (map (progress_record id) pre ++ [failed_record id step output]) /\
    writes st2 =
      writes st ++ map (progress_record id) pre ++ [failed_record id step output] /\
    spawned st2 = spawned st ++ map Cmd pre ++ [Cmd step].
Proof.
  intros Hrun Hfail.
  destruct (ExecutePipeline_prefix pre id st w1 Hrun)
    as (st1 & <- & Hm & Hws & Hsp & Hrest).
  rewrite Hrest. cbn [ExecutePipeline]. unfold bind at 1.
  rewrite (step_body_fail id step st1 w2 output err Hfail).
  eexists. split; [reflexivity |]. cbn [world buildStatuses writes spawned].
  rewrite Hm, Hws, Hsp, put_all_app, <- !app_assoc. done.
Qed.

Lemma ExecutePipeline_panic pre step post id st w1 :
  run_all (world st) pre = Some w1 ->
  Cmd step = [] ->
  exists st2,
    ExecutePipeline (pre ++ step :: post) id st = (Panicked bounds_panic, st2) /\
    world st2 = w1 /\
    buildStatuses st2 = put_all id (buildStatuses st) (map (progress_record id) pre) /\
    writes st2 = writes st ++ map (progress_record id) pre /\
    spawned st2 = spawned st ++ map Cmd pre.
Proof.
  intros Hrun HC.
  destruct (ExecutePipeline_prefix pre id st w1 Hrun)
    as (st1 & <- & Hm & Hws & Hsp & Hrest).
  rewrite Hrest. cbn [ExecutePipeline]. unfold bind at 1.
  rewrite (step_body_panic id step st1 HC).
  eexists. split; [reflexivity |]. done.
Qed.

(** A step with a command cannot be the one that panics. *)
Lemma run_all_nonempty steps w :
  Forall (fun step => Cmd step <> []) steps ->
  is_Some (run_all w steps) \/
  exists pre step post w1 output err w2,
    steps = pre ++ step :: post /\
    run_all w pre = Some w1 /\
    fails_with w1 step output err w2.
Proof.
  intros Hne.
  destruct (run_all_cases steps w)
    as [Hok | (pre & step & post & w1 & -> & Hpre & [(o & e & w2 & Hf) | HC])].
  - by left.
  - right. by exists pre, step, post, w1, o, e, w2.
  - apply Forall_app in Hne as [_ Hne]. apply Forall_cons in Hne as [Hne _]. done.
Qed.

(** ** The goroutine and the handler around it *)

Lemma run_goroutine_returned g st err st1 :
  ExecutePipeline (go_steps g) (go_id g) st = (Returned err, st1) ->
  run_goroutine g st =
    (Returned tt,
     mkState (world st1)
       (<[go_id g := final_record (go_id g) err]> (buildStatuses st1))
       (writes st1 ++ [final_record (go_id g) err])
       (spawned st1) (stderr st1)).
Proof. intros H. unfold run_goroutine, bind. rewrite H. done. Qed.

Lemma run_goroutine_panicked g st msg st1 :
  ExecutePipeline (go_steps g) (go_id g) st = (Panicked msg, st1) ->
  run_goroutine g st = (Panicked msg, st1).
Proof. intros H. unfold run_goroutine, bind. rewrite H. done. Qed.

Lemma triggerBuild_loaded config uuid st :
  triggerBuild (Some config) uuid st =
    (Returned (BuildTriggered uuid, Some (mkGoroutine uuid (Pipeline config))),
     mkState (world st)
       (<[uuid := placeholder_record uuid]> (buildStatuses st))
       (writes st ++ [placeholder_record uuid])
       (spawned st) (stderr st ++ ["Triggering build..."])).
Proof. done. Qed.

Lemma triggerBuild_not_loaded uuid st :
  triggerBuild None uuid st =
    (Returned (HttpError 500 "Failed to load pipeline configuration", None),
     mkState (world st) (buildStatuses st) (writes st) (spawned st)
       (stderr st ++ ["Triggering build..."])).
Proof. done. Qed.

Lemma run_build_loaded config uuid st :
  run_build (Some config) uuid st =
    match run_goroutine (mkGoroutine uuid (Pipeline config))
            (snd (triggerBuild (Some config) uuid st)) with
    | (Returned _, st') => (Returned (BuildTriggered uuid), st')
    | (Panicked msg, st') => (Panicked msg, st')
    end.
Proof.
  unfold run_build. unfold bind at 1. rewrite triggerBuild_loaded.
  cbn [snd fst]. unfold bind, ret.
  destruct (run_goroutine _ _) as [[[]|msg] st']; done.
Qed.

(** Non-empty text is one log entry. *)
Lemma log_entries_failed_record id step output :
  log_entries (failed_record id step output) = [Logs (failed_record id step output)].
Proof. unfold log_entries. case_decide as H; [discriminate H | done]. Qed.

Lemma log_entries_progress_record id step :
  log_entries (progress_record id step) = [Logs (progress_record id step)].
Proof. unfold log_entries. case_decide as H; [discriminate H | done]. Qed.

Lemma log_entries_final_record id err :
  log_entries (final_record id err) = [Logs (final_record id err)].
Proof. unfold log_entries. case_decide as H; [discriminate H | done]. Qed.

(** ** A pipeline with a failing step *)

(** Everything a build assigns when [step] fails after the steps of
    [pre]. *)
Lemma failing_step_history pre step post id st w1 output err w2 :
  run_all (world st) pre = Some w1 ->
  fails_with w1 step output err w2 ->
  exists st2,
    run_build (Some (mkPipelineConfig (pre ++ step :: post))) id st =
      (Returned (BuildTriggered id), st2) /\
    writes st2 =
      writes st ++
      placeholder_record id :: map (progress_record id) pre
        ++ [failed_record id step output; final_record id (Some err)].
Proof.
  intros Hpre Hfail.
  set (steps := pre ++ step :: post).
  set (st0 := snd (triggerBuild (Some (mkPipelineConfig steps)) id st)).
  destruct (ExecutePipeline_fail pre step post id st0 w1 output err w2 Hpre Hfail)
    as (st1 & Hexec & _ & _ & Hws & _).
  fold steps in Hexec.
  pose proof (run_goroutine_returned (mkGoroutine id steps) st0 _ _ Hexec) as Hgo.
  eexists. split.
  { rewrite run_build_loaded. fold st0. cbn [Pipeline]. rewrite Hgo. reflexivity. }
  cbn [writes]. rewrite Hws. subst st0. rewrite triggerBuild_loaded.
  cbn [snd writes]. rewrite <- !app_assoc. done.
Qed.

(** C1, in the form that holds of the code.  Let the first [k] steps
    ([pre]) come back with a nil error and the next one ([step]) with an
    error.  Then [ExecutePipeline] returns that error after exactly [k + 1]
    assignments to the record of the build, one per executed step and in
    the order of the steps; each of them replaces the whole [Logs] string,
    so that each holds one entry; the last one names the failing step and
    leaves the record in phase Failed; and the record that the whole build
    leaves is in phase Failed. *)
Theorem failing_step_record pre step post id st w1 output err w2 :
  run_all (world st) pre = Some w1 ->
  fails_with w1 step output err w2 ->
  let steps := pre ++ step :: post in
  let st0 := snd (triggerBuild (Some (mkPipelineConfig steps)) id st) in
  let entries := map (progress_record id) pre ++ [failed_record id step output] in
  exists st1 st2 final,
    ExecutePipeline steps id st0 = (Returned (Some err), st1) /\
    writes st1 = writes st0 ++ entries /\
    length entries = length pre + 1 /\
    Forall (fun b => ID b = id /\ length (log_entries b) = 1) entries /\
    buildStatuses st1 !! id = Some (failed_record id step output) /\
    Status (failed_record id step output) = "Failed" /\
    mentions (Name step) (Logs (failed_record id step output)) = true /\
    run_build (Some (mkPipelineConfig steps)) id st = (Returned (BuildTriggered id), st2) /\
    buildStatuses st2 !! id = Some final /\
    Status final = "Failed".
Proof.
  intros Hpre Hfail steps st0 entries.
  destruct (ExecutePipeline_fail pre step post id st0 w1 output err w2 Hpre Hfail)
    as (st1 & Hexec & _ & Hm & Hws & _).
  fold steps in Hexec.
  pose proof (run_goroutine_returned (mkGoroutine id steps) st0 _ _ Hexec) as Hgo.
  eexists st1, _, (final_record id (Some err)).
  split; [exact Hexec |]. split; [exact Hws |].
  split; [unfold entries; rewrite length_app, length_map; done |].
  split.
  { unfold entries. apply Forall_app. split.
    - apply Forall_forall. intros b Hb. apply list_elem_of_fmap in Hb as (s & -> & _).
      by rewrite log_entries_progress_record.
    - apply Forall_singleton. by rewrite log_entries_failed_record. }
  split; [rewrite Hm; apply put_all_last |].
  split; [done |].
  split; [apply failed_record_mentions |].
  split.
  { rewrite run_build_loaded. fold st0. cbn [Pipeline]. rewrite Hgo. reflexivity. }
  split; [apply lookup_insert_eq | done].
Qed.

(** ** A pipeline whose steps all succeed *)

(** C2, in the form that holds of the code.  When all [N] steps come back
    with a nil error, the build makes, after the placeholder, exactly
    [N + 1] assignments to its record: one progress record per step, in the
    order of the steps, and then the summary.  Each replaces the whole
    [Logs] string, so the record the build leaves is in phase Success and
    its log is the summary alone. *)
Theorem all_steps_succeed_record steps id st w1 :
  run_all (world st) steps = Some w1 ->
  let st0 := snd (triggerBuild (Some (mkPipelineConfig steps)) id st) in
  let entries := map (progress_record id) steps ++ [final_record id None] in
  exists st2,
    run_build (Some (mkPipelineConfig steps)) id st = (Returned (BuildTriggered id), st2) /\
    writes st2 = writes st0 ++ entries /\
    length entries = length steps + 1 /\
    map Logs entries =
      map (fun step => "Step " +:+ Name step +:+ " completed successfully") steps
        ++ ["Pipeline completed with status: Success"] /\
    buildStatuses st2 !! id = Some (final_record id None) /\
    Status (final_record id None) = "Success" /\
    log_entries (final_record id None) = ["Pipeline completed with status: Success"].
Proof.
  intros Hrun st0 entries.
  destruct (ExecutePipeline_all_ok steps id st0 w1 Hrun)
    as (st1 & Hexec & _ & _ & Hws & _).
  pose proof (run_goroutine_returned (mkGoroutine id steps) st0 _ _ Hexec) as Hgo.
  eexists. split.
  { rewrite run_build_loaded. fold st0. cbn [Pipeline]. rewrite Hgo. reflexivity. }
  cbn [writes buildStatuses go_id].
  split; [rewrite Hws; unfold entries; by rewrite <- app_assoc |].
  split; [unfold entries; rewrite length_app, length_map; done |].
  split; [unfold entries; rewrite map_app, map_map; done |].
  split; [apply lookup_insert_eq |].
  split; [done | apply log_entries_final_record].
Qed.

(** ** Order of execution *)

(** C5.  Let the steps of [pre] come back with a nil error, and let [rest]
    be either empty or headed by a step that fails.  Then the commands that
    [ExecutePipeline] starts are those of [pre], in the order of the
    definition, followed by that of the failing step if there is one: no
    command after the failing step is started, and the world is the one the
    failing step left. *)
Theorem steps_in_order_fail_fast pre rest id st w1 :
  run_all (world st) pre = Some w1 ->
  (rest = [] \/
   exists step post output err w2,
     rest = step :: post /\ fails_with w1 step output err w2) ->
  exists o st2,
    ExecutePipeline (pre ++ rest) id st = (Returned o, st2) /\
    spawned st2 = spawned st ++ map Cmd (pre ++ take 1 rest) /\
    (o = None <-> rest = []) /\
    (rest = [] -> world st2 = w1) /\
    (forall step post output err w2,
       rest = step :: post -> fails_with w1 step output err w2 ->
       o = Some err /\ world st2 = w2).
Proof.
  intros Hpre [-> | (step & post & output & err & w2 & -> & Hfail)].
  - rewrite app_nil_r.
    destruct (ExecutePipeline_all_ok pre id st w1 Hpre)
      as (st1 & Hexec & Hw & _ & _ & Hsp).
    exists None, st1. cbn [take]. rewrite app_nil_r.
    split; [done |]. split; [done |]. split; [done |]. split; [done |].
    intros ? ? ? ? ? [=].
  - destruct (ExecutePipeline_fail pre step post id st w1 output err w2 Hpre Hfail)
      as (st2 & Hexec & Hw & _ & _ & Hsp).
    exists (Some err), st2. cbn [take]. rewrite map_app.
    split; [done |]. split; [done |]. split; [done |]. split; [done |].
    intros step' post' output' err' w2' [= <- <-] (name' & args' & HC' & HO').
    destruct Hfail as (name & args & HC & HO).
    rewrite HC in HC'. injection HC' as <- <-.
    rewrite HO in HO'. injection HO' as <- <- <-. by rewrite Hw.
Qed.

(** ** The end of the goroutine *)

Lemma ExecutePipeline_returns steps id st :
  Forall (fun step => Cmd step <> []) steps ->
  exists err st1, ExecutePipeline steps id st = (Returned err, st1).
Proof.
  intros Hne.
  destruct (run_all_nonempty steps (world st) Hne)
    as [[w1 Hok] | (pre & step & post & w1 & o & e & w2 & -> & Hpre & Hf)].
  - destruct (ExecutePipeline_all_ok steps id st w1 Hok) as (st1 & H & _). eauto.
  - destruct (ExecutePipeline_fail pre step post id st w1 o e w2 Hpre Hf)
      as (st1 & H & _). eauto.
Qed.

(** C9, in the form that holds of the code.  When [ExecutePipeline]
    returns, the goroutine ends with one more assignment: the phase is
    Success if the returned error is nil and Failed otherwise, and the
    whole record, [Logs] included, is replaced: [Logs] is the summary
    string and nothing else, whatever the steps had stored.  In the server
    this assignment is the next step the goroutine takes once
    [ExecutePipeline] has returned, and that step never fails.  (Nothing is
    said of a goroutine whose [ExecutePipeline] does not return, or that
    never gets to take that step because the process has died of the panic
    of another goroutine.) *)
Theorem goroutine_terminal_write steps id st err st1 :
  ExecutePipeline steps id st = (Returned err, st1) ->
  let final :=
    {| ID := id;
       Status := final_status err;
       Logs := "Pipeline completed with status: " +:+ final_status err |} in
  (exists st2,
     run_goroutine (mkGoroutine id steps) st = (Returned tt, st2) /\
     writes st2 = writes st1 ++ [final] /\
     buildStatuses st2 = <[id := final]> (buildStatuses st1) /\
     buildStatuses st2 !! id = Some final) /\
  (final_status err = "Success" <-> err = None) /\
  (final_status err = "Failed" <-> err <> None) /\
  (forall sv i,
     goroutines sv !! i = Some (mkTask id (AfterLoop err)) ->
     exists st2,
       serve (Sched i) sv = Some (mkServer st2 (delete i (goroutines sv)), None) /\
       writes st2 = writes (proc sv) ++ [final] /\
       buildStatuses st2 = <[id := final]> (buildStatuses (proc sv)) /\
       buildStatuses st2 !! id = Some final).
Proof.
  intros Hexec final.
  pose proof (run_goroutine_returned (mkGoroutine id steps) st _ _ Hexec) as Hgo.
  split.
  { eexists. split; [exact Hgo |]. cbn [writes buildStatuses go_id].
    split; [done |]. split; [done |]. apply lookup_insert_eq. }
  split; [destruct err; cbn [final_status]; split; done |].
  split; [destruct err; cbn [final_status]; split; done |].
  intros sv i Hi. eexists. cbn [serve]. rewrite Hi.
  split; [reflexivity |]. cbn [writes buildStatuses task_id].
  split; [done |]. split; [done |]. apply lookup_insert_eq.
Qed.

(** ** Indexing the command vector *)

(** C10, in the form that holds of the code.  [ExecutePipeline] panics
    exactly when it reaches a step with an empty command vector, that is,
    when the steps before such a step all come back with a nil error; a
    pipeline that contains such a step behind a step that fails returns
    that step's error and does not panic.  The panic is raised on line 193
    by one of the two operand expressions [step.Cmd[0]] and [step.Cmd[1:]]:
    it is the run-time error of the index expression or that of the slice
    expression, as the implementation evaluates them.  It comes after the
    progress records of the earlier steps and before any command of that
    step or a later one is started.  There is a pipeline on which it
    happens, and there is none among those whose steps all have a non-empty
    command vector. *)
Theorem empty_command_panics steps id st :
  (forall msg st1,
     ExecutePipeline steps id st = (Panicked msg, st1) ->
     (msg = index_out_of_range \/ msg = slice_bounds_out_of_range) /\
     exists pre step post w1,
       steps = pre ++ step :: post /\
       run_all (world st) pre = Some w1 /\
       Cmd step = []) /\
  (forall pre step post w1,
     steps = pre ++ step :: post ->
     run_all (world st) pre = Some w1 ->
     Cmd step = [] ->
     exists st1,
       ExecutePipeline steps id st = (Panicked bounds_panic, st1) /\
       writes st1 = writes st ++ map (progress_record id) pre /\
       spawned st1 = spawned st ++ map Cmd pre) /\
  (forall pre step post w1 output err w2,
     steps = pre ++ step :: post ->
     run_all (world st) pre = Some w1 ->
     fails_with w1 step output err w2 ->
     exists st1, ExecutePipeline steps id st = (Returned (Some err), st1)) /\
  (exists steps' st1,
     Exists (fun step => Cmd step = []) steps' /\
     ExecutePipeline steps' id st = (Panicked bounds_panic, st1)) /\
  (Forall (fun step => Cmd step <> []) steps ->
   exists err st1, ExecutePipeline steps id st = (Returned err, st1)).
Proof.
  split; [| split; [| split; [| split]]].
  - intros msg st1 Hexec.
    destruct (run_all_cases steps (world st))
      as [[w1 Hok] | (pre & step & post & w1 & -> & Hpre & [(out & e & w2 & Hf) | HC])].
    + destruct (ExecutePipeline_all_ok steps id st w1 Hok) as (st' & H & _).
      rewrite H in Hexec. discriminate Hexec.
    + destruct (ExecutePipeline_fail pre step post id st w1 out e w2 Hpre Hf)
        as (st' & H & _).
      rewrite H in Hexec. discriminate Hexec.
    + destruct (ExecutePipeline_panic pre step post id st w1 Hpre HC) as (st' & H & _).
      rewrite H in Hexec. injection Hexec as <- _.
      split; [apply bounds_panic_spec |]. by exists pre, step, post, w1.
  - intros pre step post w1 -> Hpre HC.
    destruct (ExecutePipeline_panic pre step post id st w1 Hpre HC)
      as (st1 & H & _ & _ & Hws & Hsp).
    eauto.
  - intros pre step post w1 output err w2 -> Hpre Hf.
    destruct (ExecutePipeline_fail pre step post id st w1 output err w2 Hpre Hf)
      as (st1 & H & _).
    eauto.
  - destruct (ExecutePipeline_panic [] (mkPipelineStep "" []) [] id st (world st))
      as (st1 & H & _); [done .. |].
    exists [mkPipelineStep "" []], st1. split; [by constructor | exact H].
  - apply ExecutePipeline_returns.
Qed.

(** ** The history of a record *)

Lemma progress_statuses id pre :
  map Status (map (progress_record id) pre) = replicate (length pre) "In Progress".
Proof. induction pre as [|s pre IH]; cbn; [done | by rewrite <- IH]. Qed.

Lemma progress_ids id pre :
  Forall (fun b => ID b = id) (map (progress_record id) pre).
Proof. induction pre; cbn; constructor; done. Qed.

(** Whatever way [ExecutePipeline] ends, it has only assigned under its
    own key, a run of In Progress records and, if it returns an error, one
    Failed record after them. *)
Lemma ExecutePipeline_history steps id st o st1 :
  ExecutePipeline steps id st = (o, st1) ->
  exists ws n,
    writes st1 = writes st ++ ws /\
    buildStatuses st1 = put_all id (buildStatuses st) ws /\
    Forall (fun b => ID b = id) ws /\
    n <= length steps /\
    map Status ws =
      replicate n "In Progress" ++
      match o with Returned (Some _) => ["Failed"] | _ => [] end.
Proof.
  intros Hexec.
  destruct (run_all_cases steps (world st))
    as [[w1 Hok] | (pre & step & post & w1 & -> & Hpre & [(out & e & w2 & Hf) | HC])].
  - destruct (ExecutePipeline_all_ok steps id st w1 Hok) as (st' & H & _ & Hm & Hws & _).
    rewrite H in Hexec. injection Hexec as <- <-.
    exists (map (progress_record id) steps), (length steps).
    rewrite progress_statuses, app_nil_r. auto using progress_ids.
  - destruct (ExecutePipeline_fail pre step post id st w1 out e w2 Hpre Hf)
      as (st' & H & _ & Hm & Hws & _).
    rewrite H in Hexec. injection Hexec as <- <-.
    exists (map (progress_record id) pre ++ [failed_record id step out]), (length pre).
    rewrite map_app, progress_statuses, length_app.
    repeat split; try done; [| lia].
    apply Forall_app. split; [apply progress_ids | by apply Forall_singleton].
  - destruct (ExecutePipeline_panic pre step post id st w1 Hpre HC)
      as (st' & H & _ & Hm & Hws & _).
    rewrite H in Hexec. injection Hexec as <- <-.
    exists (map (progress_record id) pre), (length pre).
    rewrite progress_statuses, app_nil_r, length_app.
    repeat split; try done; [apply progress_ids | lia].
Qed.

Lemma run_goroutine_history g st o st2 :
  run_goroutine g st = (o, st2) ->
  exists ws n tail,
    writes st2 = writes st ++ ws /\
    buildStatuses st2 = put_all (go_id g) (buildStatuses st) ws /\
    Forall (fun b => ID b = go_id g) ws /\
    map Status ws = replicate n "In Progress" ++ tail /\
    goroutine_tail tail.
Proof.
  intros Hgo.
  destruct (ExecutePipeline (go_steps g) (go_id g) st) as [[err|msg] st1] eqn:Hexec.
  - rewrite (run_goroutine_returned g st err st1 Hexec) in Hgo.
    injection Hgo as <- <-.
    destruct (ExecutePipeline_history _ _ _ _ _ Hexec) as (ws & n & Hws & Hm & Hid & _ & Hst).
    exists (ws ++ [final_record (go_id g) err]), n. eexists.
    cbn [writes buildStatuses]. rewrite Hws, Hm, put_all_app, map_app, Hst, <- !app_assoc.
    split; [done |]. split; [done |].
    split; [apply Forall_app; split; [done | by apply Forall_singleton] |].
    split; [reflexivity |].
    destruct err; cbn; unfold goroutine_tail; auto.
  - rewrite (run_goroutine_panicked g st msg st1 Hexec) in Hgo.
    injection Hgo as <- <-.
    destruct (ExecutePipeline_history _ _ _ _ _ Hexec) as (ws & n & Hws & Hm & Hid & _ & Hst).
    exists ws, n, []. unfold goroutine_tail. repeat split; auto.
Qed.

Lemma run_build_history loaded uuid st o st2 :
  run_build loaded uuid st = (o, st2) ->
  exists ws n tail,
    writes st2 = writes st ++ ws /\
    buildStatuses st2 = put_all uuid (buildStatuses st) ws /\
    Forall (fun b => ID b = uuid) ws /\
    map Status ws = replicate n "In Progress" ++ tail /\
    goroutine_tail tail.
Proof.
  destruct loaded as [config|]; intros Hrun.
  - rewrite run_build_loaded in Hrun.
    destruct (run_goroutine _ _) as [o' st'] eqn:Hgo.
    destruct (run_goroutine_history _ _ _ _ Hgo)
      as (ws & n & tail & Hws & Hm & Hid & Hst & Htail).
    assert (st' = st2) as -> by (destruct o'; by injection Hrun).
    exists (placeholder_record uuid :: ws), (S n), tail.
    rewrite Hws, Hm, triggerBuild_loaded.
    cbn [snd writes buildStatuses go_id map replicate].
    rewrite Hst, <- app_assoc.
    split; [done |]. split; [done |]. split; [by constructor | done].
  - injection Hrun as <- <-. exists [], 0, []. cbn. rewrite app_nil_r.
    unfold goroutine_tail. repeat split; auto.
Qed.

(** ** Phase chains *)

Lemma phase_chain_cons s ss : phase_chain (s :: ss) = true -> phase_chain ss = true.
Proof.
  destruct ss as [|s' ss]; [done |].
  cbn [phase_chain]. intros H. by apply andb_true_iff in H as [_ H].
Qed.

Lemma phase_chain_app_r ss1 ss2 :
  phase_chain (ss1 ++ ss2) = true -> phase_chain ss2 = true.
Proof.
  induction ss1 as [|s ss1 IH]; [done |].
  intros H. apply IH. by apply phase_chain_cons in H.
Qed.

Lemma status_step_terminal s s' :
  terminal_status s = true -> status_step s s' = true -> s' = s.
Proof.
  unfold terminal_status. intros Ht Hs.
  apply orb_true_iff in Ht as [Ht | Ht]; apply bool_decide_eq_true in Ht; subst s;
    unfold status_step in Hs; cbn in Hs;
    unfold phase_of_status in Hs; repeat case_decide; subst; done.
Qed.

Lemma phase_chain_terminal s ss :
  phase_chain (s :: ss) = true -> terminal_status s = true ->
  Forall (fun s' => s' = s) ss.
Proof.
  revert s. induction ss as [|s' ss IH]; intros s Hc Ht; [constructor |].
  cbn [phase_chain] in Hc. apply andb_true_iff in Hc as [Hs Hc].
  apply (status_step_terminal _ _ Ht) in Hs as ->.
  constructor; [done | by apply IH].
Qed.

Lemma phase_chain_progress n tail :
  goroutine_tail tail ->
  phase_chain (replicate n "In Progress" ++ tail) = true.
Proof.
  intros Htail. induction n as [|n IH].
  - destruct Htail as [-> | [-> | ->]]; done.
  - cbn [replicate app]. cbn [replicate app] in IH.
    destruct n as [|n].
    + destruct Htail as [-> | [-> | ->]]; done.
    + cbn [replicate app phase_chain] in *. by rewrite IH.
Qed.

(** ** A duplicate identifier *)

(** Nothing a build does touches a record under another key. *)
Lemma run_build_other_records loaded uuid st o st2 id :
  run_build loaded uuid st = (o, st2) ->
  id <> uuid ->
  buildStatuses st2 !! id = buildStatuses st !! id.
Proof.
  intros Hrun Hne.
  destruct (run_build_history _ _ _ _ _ Hrun) as (ws & _ & _ & _ & -> & _).
  by apply put_all_other.
Qed.

(** C8, in the form that holds of the code.  When [triggerBuild] is
    handed an identifier that is already a key of the map, it does not
    fail: it answers as for any other build and starts the goroutine, and
    the record under that key is replaced by the placeholder.  The record
    of no other identifier is changed, neither by the handler nor by the
    build that follows. *)
Theorem duplicate_identifier_overwrites config uuid st old :
  buildStatuses st !! uuid = Some old ->
  exists st1,
    triggerBuild (Some config) uuid st =
      (Returned (BuildTriggered uuid, Some (mkGoroutine uuid (Pipeline config))), st1) /\
    buildStatuses st1 !! uuid = Some (placeholder_record uuid) /\
    (forall id, id <> uuid -> buildStatuses st1 !! id = buildStatuses st !! id) /\
    (forall o st2 id,
       run_build (Some config) uuid st = (o, st2) ->
       id <> uuid ->
       buildStatuses st2 !! id = buildStatuses st !! id).
Proof.
  intros _. eexists. split; [apply triggerBuild_loaded |].
  cbn [buildStatuses].
  split; [apply lookup_insert_eq |].
  split; [intros id Hne; by apply lookup_insert_ne |].
  intros o st2 id Hrun Hne. by apply (run_build_other_records _ _ _ _ _ _ Hrun).
Qed.

(** ** The server *)

(** A goroutine stepped on its own, with fuel for its loop iterations and
    its two last steps, does what [run_goroutine] does in one go. *)
Lemma run_task_goroutine steps id :
  forall fuel st,
    length steps + 2 <= fuel ->
    run_task fuel (spawn (mkGoroutine id steps)) st =
      match run_goroutine (mkGoroutine id steps) st with
      | (Returned _, st') => (Returned None, st')
      | (Panicked msg, st') => (Panicked msg, st')
      end.
Proof.
  unfold spawn, run_goroutine. cbn [go_id go_steps].
  induction steps as [|step rest IH]; intros fuel st Hfuel.
  - destruct fuel as [|[|fuel]]; [cbn in Hfuel; lia .. |]. done.
  - destruct fuel as [|fuel]; [cbn in Hfuel; lia |].
    cbn [run_task task_step task_pc task_id ExecutePipeline].
    unfold bind in *.
    destruct (step_body id step st) as [[[err|]|msg] st1] eqn:Hb; [| | done].
    + destruct fuel as [|fuel]; [cbn in Hfuel; lia |]. done.
    + unfold ret at 1. rewrite IH by (cbn in Hfuel; lia). done.
Qed.

Lemma step_body_store id step st o st' :
  step_body id step st = (o, st') ->
  buildStatuses st' = buildStatuses st \/
  exists b, buildStatuses st' = <[id := b]> (buildStatuses st).
Proof.
  destruct (Cmd step) as [|name args] eqn:HC.
  { rewrite (step_body_panic _ _ _ HC). intros [= _ <-]. by left. }
  destruct (CombinedOutput (world st) name args) as [w' [output [err|]]] eqn:HO.
  - rewrite (step_body_fail id step st w' output err) by (by exists name, args).
    intros [= _ <-]. right. by eexists.
  - rewrite (step_body_ok id step st name args w' output HC HO).
    intros [= _ <-]. right. by eexists.
Qed.

Lemma task_step_store t st o st' :
  task_step t st = (o, st') ->
  (buildStatuses st' = buildStatuses st \/
   exists b, buildStatuses st' = <[task_id t := b]> (buildStatuses st)) /\
  (forall t', o = Returned (Some t') -> task_id t' = task_id t).
Proof.
  unfold task_step. destruct (task_pc t) as [[|step rest]|err].
  - intros [= <- <-]. split; [by left |]. by intros t' [= <-].
  - unfold bind. destruct (step_body (task_id t) step st) as [[r|msg] st1] eqn:Hb.
    + intros H. split; [| destruct r; injection H as <- _; by intros t' [= <-]].
      assert (st1 = st') as <- by (destruct r; by injection H).
      by apply step_body_store in Hb.
    + intros [= <- <-]. split; [| done]. by apply step_body_store in Hb.
  - intros [= <- <-]. split; [| done]. right. by eexists.
Qed.

Lemma triggered_ids_cons ev evs :
  triggered_ids (ev :: evs) = triggered_ids [ev] ++ triggered_ids evs.
Proof. by destruct ev as [[c|] uuid | id | i]. Qed.

Lemma insert_tracked (m : gmap string BuildStatus) id b ids :
  id ∈ ids ->
  (forall id', is_Some (m !! id') <-> id' ∈ ids) ->
  forall id', is_Some (<[id := b]> m !! id') <-> id' ∈ ids.
Proof.
  intros Hin Hm id'. rewrite lookup_insert. case_decide as Heq.
  - subst id'. split; [done | by eexists].
  - apply Hm.
Qed.

(** Every event keeps the map and the identifiers in step. *)
Lemma serve_tracks ev sv sv' r ids :
  store_tracks sv ids ->
  serve ev sv = Some (sv', r) ->
  store_tracks sv' (ids ++ triggered_ids [ev]).
Proof.
  intros [Hm Hg]. destruct ev as [[config|] uuid | id | i]; cbn [serve triggered_ids].
  - rewrite triggerBuild_loaded. intros [= <- _]. split; cbn [proc goroutines buildStatuses].
    + intros id. rewrite lookup_insert, elem_of_app, list_elem_of_singleton, <- Hm.
      case_decide as Heq; [subst; split; [by right | by eexists] |].
      split; [by left | intros [H | H]; [done | congruence]].
    + apply Forall_app. split.
      * eapply Forall_impl; [exact Hg |]. intros t Ht. apply elem_of_app. by left.
      * apply Forall_singleton. cbn. apply elem_of_app. right. by apply list_elem_of_singleton.
  - rewrite triggerBuild_not_loaded. intros [= <- _]. rewrite !app_nil_r. by split.
  - unfold checkStatus, bind, store_get, ret.
    destruct (buildStatuses (proc sv) !! id); intros [= <- _]; rewrite app_nil_r; by split.
  - rewrite app_nil_r. destruct (goroutines sv !! i) as [t|] eqn:Ht.
    2: { intros [= <- _]. by split. }
    assert (Hin : task_id t ∈ ids).
    { eapply Forall_lookup_1 in Hg; [exact Hg | exact Ht]. }
    destruct (task_step t (proc sv)) as [[[t'|]|msg] st'] eqn:Hstep; [| | done];
      intros [= <- _]; apply task_step_store in Hstep as [Hst Hid];
      (split; cbn [proc goroutines];
       [destruct Hst as [-> | [b ->]]; [done | by apply insert_tracked] |]).
    + apply Forall_insert; [done |]. by rewrite (Hid t' eq_refl).
    + by apply Forall_delete.
Qed.

Lemma serve_all_tracks evs :
  forall sv sv' ids,
    store_tracks sv ids ->
    serve_all evs sv = Some sv' ->
    store_tracks sv' (ids ++ triggered_ids evs).
Proof.
  induction evs as [|ev evs IH]; intros sv sv' ids Hinv Hrun.
  - injection Hrun as <-. by rewrite app_nil_r.
  - cbn [serve_all] in Hrun.
    destruct (serve ev sv) as [[sv1 r]|] eqn:Hserve; [| done].
    rewrite triggered_ids_cons, app_assoc.
    eapply IH; [| exact Hrun]. by eapply serve_tracks.
Qed.

Lemma boot_tracks w : store_tracks (boot w) [].
Proof.
  split; [| constructor]. intros id. cbn. rewrite lookup_empty.
  split; [by intros [? ?] | by intros ?%elem_of_nil].
Qed.

(** C7.  In the server as started by [main], after any sequence of
    requests and goroutine steps, GET /status/{id} answers 404 exactly when
    no POST /build has stored a placeholder under [id]; otherwise it
    answers with the record the map holds under [id] at that moment, and
    leaves the server as it was. *)
Theorem status_not_found_iff_never_triggered w evs sv id :
  serve_all evs (boot w) = Some sv ->
  (serve (Query id) sv = Some (sv, Some (HttpError 404 "Build ID not found")) <->
   id ∉ triggered_ids evs) /\
  (id ∈ triggered_ids evs ->
   exists b,
     buildStatuses (proc sv) !! id = Some b /\
     serve (Query id) sv = Some (sv, Some (StatusJSON b))).
Proof.
  intros Hrun.
  destruct (serve_all_tracks evs _ _ _ (boot_tracks w) Hrun) as [Hm _].
  cbn [app] in Hm. specialize (Hm id).
  cbn [serve]. unfold checkStatus, bind, store_get, ret.
  destruct sv as [st gs]. cbn [proc goroutines] in *.
  destruct (buildStatuses st !! id) as [b|] eqn:Hb.
  - split.
    + split; [done |]. intros Hnot. destruct Hnot. apply Hm. by eexists.
    + intros _. by exists b.
  - split.
    + split; [| done]. intros _ Hin. apply Hm in Hin as [? ?]. done.
    + intros Hin. apply Hm in Hin as [? ?]. done.
Qed.

(** ** Histories in the server *)

Lemma elem_of_middle {A} (x : A) (l1 l2 : list A) : x ∈ l1 ++ x :: l2.
Proof. apply elem_of_app. right. apply list_elem_of_here. Qed.

Lemma elem_of_app_middle {A} (x y : A) (l1 l2 : list A) :
  x ∈ l1 ++ l2 -> x ∈ l1 ++ y :: l2.
Proof.
  rewrite !elem_of_app, elem_of_cons. intros [H | H]; [by left | right; by right].
Qed.

Lemma not_elem_of_app_middle {A} (x y : A) (l1 l2 : list A) :
  x <> y -> x ∉ l1 ++ l2 -> x ∉ l1 ++ y :: l2.
Proof.
  rewrite !elem_of_app, elem_of_cons. intros Hne Hn [H | [H | H]]; [| done |].
  - apply Hn. by left.
  - apply Hn. by right.
Qed.

Lemma phase_chain_replicate n tail :
  phase_chain ("In Progress" :: tail) = true ->
  phase_chain (replicate n "In Progress" ++ tail) = true.
Proof.
  intros Htail. induction n as [|n IH].
  - by apply phase_chain_cons in Htail.
  - destruct n as [|n]; [done |].
    cbn [replicate app phase_chain] in *. by rewrite IH.
Qed.

Lemma history_app st st' id ws :
  writes st' = writes st ++ ws ->
  history st' id = history st id ++ map Status (filter (fun b => ID b = id) ws).
Proof. intros H. unfold history. by rewrite H, filter_app, map_app. Qed.

Lemma filter_own id ws :
  Forall (fun b => ID b = id) ws -> filter (fun b => ID b = id) ws = ws.
Proof.
  induction 1 as [|b ws Hb _ IH]; [done |].
  rewrite filter_cons_True by done. by rewrite IH.
Qed.

Lemma filter_foreign id id' ws :
  id <> id' ->
  Forall (fun b => ID b = id) ws -> filter (fun b => ID b = id') ws = [].
Proof.
  intros Hne. induction 1 as [|b ws Hb _ IH]; [done |].
  rewrite filter_cons_False by congruence. done.
Qed.

Lemma step_body_writes id step st o st' :
  step_body id step st = (o, st') ->
  (exists msg, o = Panicked msg /\ writes st' = writes st) \/
  (o = Returned None /\ writes st' = writes st ++ [progress_record id step]) \/
  (exists err output,
     o = Returned (Some err) /\
     writes st' = writes st ++ [failed_record id step output]).
Proof.
  destruct (Cmd step) as [|name args] eqn:HC.
  { rewrite (step_body_panic _ _ _ HC). intros [= <- <-]. left. by eexists. }
  destruct (CombinedOutput (world st) name args) as [w' [output [err|]]] eqn:HO.
  - rewrite (step_body_fail id step st w' output err) by (by exists name, args).
    intros [= <- <-]. right. right. by exists err, output.
  - rewrite (step_body_ok id step st name args w' output HC HO).
    intros [= <- <-]. right. by left.
Qed.

(** One step of a goroutine extends the history of its record as its
    program counter says. *)
Lemma task_step_history t st r st' :
  task_step t st = (Returned r, st') ->
  exists ws,
    writes st' = writes st ++ ws /\
    Forall (fun b => ID b = task_id t) ws /\
    forall h,
      live_history (task_pc t) h ->
      match r with
      | Some t' =>
          task_id t' = task_id t /\
          live_history (task_pc t') (h ++ map Status ws)
      | None => ended_history (h ++ map Status ws)
      end.
Proof.
  unfold task_step. destruct (task_pc t) as [[|step rest]|err].
  - intros [= <- <-]. exists []. rewrite !app_nil_r. split; [done |].
    split; [constructor |]. intros h Hh. rewrite app_nil_r. done.
  - unfold bind. destruct (step_body (task_id t) step st) as [[[e|]|msg] st1] eqn:Hb;
      [| | done]; intros [= <- <-];
      apply step_body_writes in Hb
        as [(msg & [=] & _) | [[[=] Hws] | (e' & out & [=] & Hws)]].
    + exists [failed_record (task_id t) step out].
      split; [done |]. split; [by apply Forall_singleton |].
      intros h [n ->]. split; [done |]. by exists n.
    + exists [progress_record (task_id t) step].
      split; [done |]. split; [by apply Forall_singleton |].
      intros h [n ->]. split; [done |]. exists (S n).
      cbn [map Status progress_record task_pc live_history].
      change ["In Progress"] with (replicate 1 "In Progress").
      by rewrite <- replicate_add, Nat.add_1_r.
  - intros [= <- <-]. exists [final_record (task_id t) err].
    split; [done |]. split; [by apply Forall_singleton |].
    intros h Hh. right. destruct err as [e|]; destruct Hh as [n ->]; exists n.
    + right. by rewrite <- app_assoc.
    + by left.
Qed.

Lemma history_same st st' id :
  writes st' = writes st -> history st' id = history st id.
Proof. intros H. unfold history. by rewrite H. Qed.

Lemma history_foreign st st' id id' ws :
  writes st' = writes st ++ ws ->
  Forall (fun b => ID b = id) ws ->
  id <> id' ->
  history st' id' = history st id'.
Proof.
  intros Hws Hid Hne. rewrite (history_app _ _ _ _ Hws).
  rewrite (filter_foreign id id' ws Hne Hid). apply app_nil_r.
Qed.

Lemma history_own st st' id ws :
  writes st' = writes st ++ ws ->
  Forall (fun b => ID b = id) ws ->
  history st' id = history st id ++ map Status ws.
Proof.
  intros Hws Hid. rewrite (history_app _ _ _ _ Hws). by rewrite filter_own.
Qed.

Lemma history_unwritten st id ids :
  Forall (fun b => ID b ∈ ids) (writes st) -> id ∉ ids -> history st id = [].
Proof.
  intros Hall Hid. unfold history.
  induction Hall as [|b ws Hb _ IH]; [done |].
  rewrite filter_cons_False; [done |]. intros <-. done.
Qed.

Lemma sched_split (l : list Task) i t :
  l !! i = Some t ->
  exists l1 l2,
    l = l1 ++ t :: l2 /\
    (forall t', <[i := t']> l = l1 ++ t' :: l2) /\
    delete i l = l1 ++ l2.
Proof.
  intros Hi. exists (take i l), (drop (S i) l).
  split; [by rewrite take_drop_middle |].
  split; [| apply delete_take_drop].
  intros t'. apply insert_take_drop. by eapply lookup_lt_Some.
Qed.

Lemma histories_ok_trigger sv config uuid st' ids :
  histories_ok sv ids ->
  uuid ∉ ids ->
  triggerBuild (Some config) uuid (proc sv) =
    (Returned (BuildTriggered uuid, Some (mkGoroutine uuid (Pipeline config))), st') ->
  histories_ok
    (mkServer st' (goroutines sv ++ [spawn (mkGoroutine uuid (Pipeline config))]))
    (ids ++ [uuid]).
Proof.
  intros (Htr & Hnd & Hws & Hlive & Hend) Hfresh Htrig.
  assert (Htr' : store_tracks sv ids) by exact Htr.
  destruct Htr as [_ Hg].
  assert (Hnot : uuid ∉ (task_id <$> goroutines sv)).
  { intros (t & -> & Ht)%list_elem_of_fmap.
    apply Hfresh. eapply Forall_forall in Hg; [exact Hg | exact Ht]. }
  rewrite triggerBuild_loaded in Htrig. injection Htrig as <-.
  assert (Hother : forall id, id <> uuid ->
    history
      (mkState (world (proc sv))
         (<[uuid := placeholder_record uuid]> (buildStatuses (proc sv)))
         (writes (proc sv) ++ [placeholder_record uuid]) (spawned (proc sv))
         (stderr (proc sv) ++ ["Triggering build..."])) id
    = history (proc sv) id).
  { intros id Hne. eapply history_foreign; [reflexivity | | ].
    - by apply Forall_singleton.
    - done. }
  split; [| split; [| split; [| split]]]; cbn [proc goroutines].
  - pose proof (serve_tracks (Trigger (Some config) uuid) sv) as H.
    cbn [serve triggered_ids] in H. rewrite triggerBuild_loaded in H.
    by eapply H.
  - rewrite fmap_app. apply NoDup_app. split; [done |]. split.
    + intros id Hin Hin2. apply list_elem_of_singleton in Hin2. by subst.
    + apply NoDup_singleton.
  - cbn [writes]. apply Forall_app. split.
    + eapply Forall_impl; [exact Hws |]. intros b Hb. apply elem_of_app. by left.
    + apply Forall_singleton. apply elem_of_app. right. by apply list_elem_of_singleton.
  - intros t [Ht | Ht%list_elem_of_singleton]%elem_of_app.
    + rewrite Hother; [by apply Hlive |].
      intros Heq. apply Hnot. apply list_elem_of_fmap. by exists t.
    + subst t. cbn [spawn task_id task_pc go_id live_history].
      erewrite history_own; [| reflexivity | by apply Forall_singleton].
      rewrite (history_unwritten _ _ _ Hws Hfresh). by exists 0.
  - intros id Hid. rewrite fmap_app in Hid.
    apply not_elem_of_app in Hid as [Hid Hne].
    rewrite Hother; [by apply Hend |].
    intros ->. apply Hne. by apply list_elem_of_singleton.
Qed.

Lemma histories_ok_sched sv i t r st' ids :
  histories_ok sv ids ->
  goroutines sv !! i = Some t ->
  task_step t (proc sv) = (Returned r, st') ->
  histories_ok
    (mkServer st'
       (match r with
        | Some t' => <[i := t']> (goroutines sv)
        | None => delete i (goroutines sv)
        end))
    ids.
Proof.
  intros (Htr & Hnd & Hws & Hlive & Hend) Hi Hstep.
  assert (Htr' : store_tracks (mkServer st'
       (match r with
        | Some t' => <[i := t']> (goroutines sv)
        | None => delete i (goroutines sv)
        end)) ids).
  { pose proof (serve_tracks (Sched i) sv) as H.
    cbn [serve triggered_ids] in H. rewrite Hi, Hstep in H.
    specialize (H (mkServer st'
       (match r with
        | Some t' => <[i := t']> (goroutines sv)
        | None => delete i (goroutines sv)
        end)) None ids Htr).
    rewrite app_nil_r in H. apply H. by destruct r. }
  destruct Htr as [_ Hg].
  destruct (task_step_history _ _ _ _ Hstep) as (ws & Hwr & Hown & Hnext).
  destruct (sched_split _ _ _ Hi) as (l1 & l2 & Hl & Hins & Hdel).
  assert (Hin : t ∈ goroutines sv) by (rewrite Hl; apply elem_of_middle).
  assert (Htid : task_id t ∈ ids).
  { eapply Forall_forall in Hg; [exact Hg | exact Hin]. }
  specialize (Hnext _ (Hlive t Hin)).
  rewrite Hl, fmap_app, fmap_cons in Hnd.
  apply NoDup_app in Hnd as (Hnd1 & Hsep & Hnd2).
  apply NoDup_cons in Hnd2 as [Hnot2 Hnd2].
  assert (Hnot1 : task_id t ∉ (task_id <$> l1)).
  { intros H1. apply (Hsep _ H1). by left. }
  assert (Hothers : forall t2, t2 ∈ l1 ++ l2 ->
            live_history (task_pc t2) (history st' (task_id t2))).
  { intros t2 Ht2.
    assert (task_id t <> task_id t2).
    { intros Heq. apply elem_of_app in Ht2 as [Ht2 | Ht2].
      - apply Hnot1. rewrite Heq. apply list_elem_of_fmap. by exists t2.
      - apply Hnot2. rewrite Heq. apply list_elem_of_fmap. by exists t2. }
    rewrite (history_foreign _ _ _ _ _ Hwr Hown) by done.
    apply Hlive. rewrite Hl. by apply elem_of_app_middle. }
  assert (Hrest : forall id, id <> task_id t ->
            id ∉ (task_id <$> (l1 ++ l2)) ->
            ended_history (history st' id)).
  { intros id Hne Hid.
    rewrite (history_foreign _ _ _ _ _ Hwr Hown) by done.
    apply Hend. rewrite Hl, fmap_app, fmap_cons. rewrite fmap_app in Hid.
    by apply not_elem_of_app_middle. }
  split; [exact Htr' |]. cbn [proc goroutines].
  split; [| split; [| split]].
  - destruct r as [t'|].
    + destruct Hnext as [Hid' _].
      rewrite Hins, fmap_app, fmap_cons, Hid'.
      apply NoDup_app. split; [done |]. split; [done |]. by apply NoDup_cons.
    + rewrite Hdel, fmap_app. apply NoDup_app. split; [done |].
      split; [| done]. intros x H1 H2. apply (Hsep _ H1). by right.
  - rewrite Hwr. apply Forall_app. split; [done |].
    eapply Forall_impl; [exact Hown |]. intros b Hb. cbn in Hb. by rewrite Hb.
  - destruct r as [t'|].
    + destruct Hnext as [Hid' Hlive'].
      rewrite Hins. intros t2 Ht2.
      apply elem_of_app in Ht2 as [Ht2 | Ht2];
        [apply Hothers, elem_of_app; by left |].
      apply elem_of_cons in Ht2 as [-> | Ht2];
        [| apply Hothers, elem_of_app; by right].
      rewrite Hid'. by rewrite (history_own _ _ _ _ Hwr Hown).
    + rewrite Hdel. exact Hothers.
  - intros id Hid. destruct (decide (id = task_id t)) as [-> | Hne].
    + destruct r as [t'|].
      * destruct Hnext as [Hid' _]. destruct Hid.
        rewrite Hins, fmap_app, fmap_cons, Hid'. apply elem_of_middle.
      * by rewrite (history_own _ _ _ _ Hwr Hown).
    + apply Hrest; [done |]. destruct r as [t'|].
      * rewrite Hins, fmap_app, fmap_cons in Hid. rewrite fmap_app.
        intros Hin'. apply Hid. by apply elem_of_app_middle.
      * by rewrite Hdel in Hid.
Qed.

Lemma histories_ok_same sv st' ids :
  histories_ok sv ids ->
  buildStatuses st' = buildStatuses (proc sv) ->
  writes st' = writes (proc sv) ->
  histories_ok (mkServer st' (goroutines sv)) ids.
Proof.
  intros ([Hm Hg] & Hnd & Hws & Hlive & Hend) Hb Hw.
  unfold histories_ok, store_tracks, history in *. cbn [proc goroutines].
  rewrite Hb, Hw. done.
Qed.

Lemma serve_histories ev sv sv' r ids :
  histories_ok sv ids ->
  (forall uuid, uuid ∈ triggered_ids [ev] -> uuid ∉ ids) ->
  serve ev sv = Some (sv', r) ->
  histories_ok sv' (ids ++ triggered_ids [ev]).
Proof.
  intros Hok Hfresh. destruct ev as [[config|] uuid | id | i]; cbn [serve triggered_ids].
  - rewrite triggerBuild_loaded. intros [= <- _]. cbn [option_list fmap option_fmap option_map].
    eapply histories_ok_trigger; [done | | apply triggerBuild_loaded].
    apply Hfresh. cbn. apply list_elem_of_here.
  - rewrite triggerBuild_not_loaded. intros [= <- _]. rewrite !app_nil_r.
    by apply histories_ok_same.
  - unfold checkStatus, bind, store_get, ret.
    destruct (buildStatuses (proc sv) !! id); intros [= <- _]; rewrite app_nil_r;
      by apply histories_ok_same.
  - rewrite app_nil_r. destruct (goroutines sv !! i) as [t|] eqn:Ht.
    2: { by intros [= <- _]. }
    destruct (task_step t (proc sv)) as [[r'|msg] st'] eqn:Hstep; [| done].
    pose proof (histories_ok_sched sv i t r' st' ids Hok Ht Hstep) as H.
    destruct r' as [t'|]; by intros [= <- _].
Qed.

Lemma serve_all_histories evs :
  forall sv sv' ids,
    histories_ok sv ids ->
    NoDup (ids ++ triggered_ids evs) ->
    serve_all evs sv = Some sv' ->
    histories_ok sv' (ids ++ triggered_ids evs).
Proof.
  induction evs as [|ev evs IH]; intros sv sv' ids Hok Hnd Hrun.
  - injection Hrun as <-. by rewrite app_nil_r.
  - cbn [serve_all] in Hrun.
    destruct (serve ev sv) as [[sv1 r]|] eqn:Hserve; [| done].
    rewrite triggered_ids_cons, app_assoc in *.
    eapply IH; [| done | exact Hrun].
    eapply serve_histories; [done | | exact Hserve].
    intros uuid Hin Hin'.
    apply NoDup_app in Hnd as (Hnd & _ & _).
    apply NoDup_app in Hnd as (_ & Hsep & _). by apply (Hsep uuid).
Qed.

Lemma boot_histories w : histories_ok (boot w) [].
Proof.
  split; [apply boot_tracks |]. cbn.
  split; [constructor |]. split; [constructor |].
  split; [by intros t ?%elem_of_nil | by left].
Qed.

Lemma live_history_chain pc h : live_history pc h -> phase_chain h = true.
Proof.
  destruct pc as [rest|[e|]]; intros [n ->].
  - rewrite <- (app_nil_r (replicate _ _)). by apply phase_chain_replicate.
  - by apply phase_chain_replicate.
  - rewrite <- (app_nil_r (replicate _ _)). by apply phase_chain_replicate.
Qed.

Lemma ended_history_chain h : ended_history h -> phase_chain h = true.
Proof.
  intros [-> | [n [-> | ->]]]; [done | |]; by apply phase_chain_replicate.
Qed.

Lemma server_histories_chain w evs sv id :
  NoDup (triggered_ids evs) ->
  serve_all evs (boot w) = Some sv ->
  phase_chain (history (proc sv) id) = true.
Proof.
  intros Hnd Hrun.
  destruct (serve_all_histories evs _ _ [] (boot_histories w) Hnd Hrun)
    as (_ & _ & _ & Hlive & Hend).
  destruct (decide (id ∈ (task_id <$> goroutines sv))) as [Hin | Hout].
  - apply list_elem_of_fmap in Hin as (t & -> & Ht).
    eapply live_history_chain. by apply Hlive.
  - apply ended_history_chain. by apply Hend.
Qed.

(** ** The phases of a build *)

(** C6.  The [Status] values that a build assigns to its record, from the
    placeholder to the end of its goroutine, form a phase chain: each is a
    phase and each follows the one before along Pending, InProgress,
    (Success | Failed).  After a Success or a Failed, every later
    assignment has that same phase.  Failed is reached from InProgress at
    any step boundary: when [k] steps succeed and the next fails, the chain
    is [k + 1] times In Progress and then Failed.  The same holds in the
    server, whatever way requests and goroutine steps interleave, for the
    whole history of every record, as long as no identifier is handed out
    twice. *)
Theorem phases_move_one_way :
  (forall loaded uuid st o st2,
     run_build loaded uuid st = (o, st2) ->
     exists ws,
       writes st2 = writes st ++ ws /\
       Forall (fun b => ID b = uuid) ws /\
       phase_chain (map Status ws) = true /\
       (forall before s after,
          map Status ws = before ++ s :: after ->
          terminal_status s = true ->
          Forall (fun s' => s' = s) after) /\
       (forall pre step post w1 output err w2,
          loaded = Some (mkPipelineConfig (pre ++ step :: post)) ->
          run_all (world st) pre = Some w1 ->
          fails_with w1 step output err w2 ->
          map Status ws =
            replicate (S (length pre)) "In Progress" ++ ["Failed"; "Failed"])) /\
  (forall w evs sv id,
     NoDup (triggered_ids evs) ->
     serve_all evs (boot w) = Some sv ->
     phase_chain (history (proc sv) id) = true /\
     (forall before s after,
        history (proc sv) id = before ++ s :: after ->
        terminal_status s = true ->
        Forall (fun s' => s' = s) after)).
Proof.
  split.
  - intros loaded uuid st o st2 Hrun.
    destruct (run_build_history _ _ _ _ _ Hrun)
      as (ws & n & tail & Hws & _ & Hid & Hst & Htail).
    assert (Hchain : phase_chain (map Status ws) = true).
    { rewrite Hst. by apply phase_chain_progress. }
    exists ws. split; [done |]. split; [done |]. split; [done |]. split.
    + intros before s after Heq Ht. rewrite Heq in Hchain.
      apply phase_chain_app_r in Hchain. by apply phase_chain_terminal.
    + intros pre step post w1 output err w2 -> Hpre Hfail.
      destruct (failing_step_history pre step post uuid st w1 output err w2 Hpre Hfail)
        as (st2' & Hrun' & Hws').
      rewrite Hrun in Hrun'. injection Hrun' as _ <-.
      rewrite Hws in Hws'. apply app_inv_head in Hws' as ->.
      cbn [map replicate]. rewrite map_app, progress_statuses. done.
  - intros w evs sv id Hnd Hrun.
    pose proof (server_histories_chain w evs sv id Hnd Hrun) as Hchain.
    split; [done |].
    intros before s after Heq Ht. rewrite Heq in Hchain.
    apply phase_chain_app_r in Hchain. by apply phase_chain_terminal.
Qed.

(** * Further properties of the engine *)

(** ** The map and its history *)

Lemma puts_refl id st st' :
  writes st' = writes st -> buildStatuses st' = buildStatuses st -> puts id st st'.
Proof. intros Hw Hb. exists []. rewrite app_nil_r. by repeat split. Qed.

Lemma puts_one id st st' b :
  writes st' = writes st ++ [b] ->
  buildStatuses st' = <[id := b]> (buildStatuses st) ->
  ID b = id -> known_status (Status b) ->
  puts id st st'.
Proof.
  intros Hw Hb Hid Hst. exists [b]. split; [done |]. split; [done |].
  by apply Forall_singleton.
Qed.

Lemma known_final err : known_status (final_status err).
Proof. destruct err; cbn; unfold known_status; auto. Qed.

Lemma step_body_puts id step st o st' :
  step_body id step st = (o, st') -> puts id st st'.
Proof.
  destruct (Cmd step) as [|name args] eqn:HC.
  { rewrite (step_body_panic _ _ _ HC). intros [= _ <-]. by apply puts_refl. }
  destruct (CombinedOutput (world st) name args) as [w' [output [err|]]] eqn:HO.
  - rewrite (step_body_fail id step st w' output err) by (by exists name, args).
    intros [= _ <-]. eapply puts_one; [done | done | done |].
    unfold known_status. cbn. auto.
  - rewrite (step_body_ok id step st name args w' output HC HO).
    intros [= _ <-]. eapply puts_one; [done | done | done |].
    unfold known_status. cbn. auto.
Qed.

Lemma task_step_puts t st o st' :
  task_step t st = (o, st') -> puts (task_id t) st st'.
Proof.
  unfold task_step. destruct (task_pc t) as [[|step rest]|err].
  - intros [= _ <-]. by apply puts_refl.
  - unfold bind. destruct (step_body (task_id t) step st) as [[r|msg] st1] eqn:Hb.
    + intros H. assert (st1 = st') as <- by (destruct r; by injection H).
      by apply step_body_puts in Hb.
    + intros [= _ <-]. by apply step_body_puts in Hb.
  - intros [= _ <-]. eapply puts_one; [done | done | done |]. apply known_final.
Qed.

Lemma triggerBuild_puts config uuid st :
  puts uuid st (snd (triggerBuild (Some config) uuid st)).
Proof.
  rewrite triggerBuild_loaded. eapply puts_one; [done | done | done |].
  unfold known_status. cbn. auto.
Qed.

(** Assignments under one key keep the map in step with the history. *)
Lemma put_all_latest id ws :
  Forall (fun b => ID b = id) ws ->
  forall (m : gmap string BuildStatus) ws0,
    (forall id', m !! id' = last (filter (fun b => ID b = id') ws0)) ->
    forall id',
      put_all id m ws !! id' = last (filter (fun b => ID b = id') (ws0 ++ ws)).
Proof.
  induction 1 as [|b ws Hb _ IH]; intros m ws0 Hm id'.
  - rewrite app_nil_r. apply Hm.
  - cbn [put_all foldl]. rewrite (cons_middle b ws0 ws), app_assoc.
    apply IH. intros id''. rewrite filter_app, lookup_insert.
    case_decide as Heq.
    + subst id''. rewrite filter_cons_True, filter_nil by done.
      by rewrite last_snoc.
    + rewrite filter_cons_False, filter_nil, app_nil_r by congruence. apply Hm.
Qed.

Lemma latest_ok_puts id st st' : latest_ok st -> puts id st st' -> latest_ok st'.
Proof.
  intros Hok (ws & Hw & Hb & Hall) id'. rewrite Hw, Hb.
  apply put_all_latest; [| exact Hok].
  eapply Forall_impl; [exact Hall |]. by intros b [? _].
Qed.

Lemma records_ok_puts id st st' : records_ok st -> puts id st st' -> records_ok st'.
Proof.
  intros Hok (ws & _ & Hb & Hall). unfold records_ok in *. rewrite Hb. clear Hb.
  revert Hok. generalize (buildStatuses st) as m.
  induction Hall as [|b ws Hb _ IH]; intros m Hm; [exact Hm |].
  cbn [put_all foldl]. apply IH. intros id' b'. rewrite lookup_insert.
  case_decide as Heq; [| apply Hm]. intros [= <-]. by subst.
Qed.

Lemma puts_other id st st' id' :
  puts id st st' -> id <> id' -> buildStatuses st' !! id' = buildStatuses st !! id'.
Proof. intros (ws & _ & -> & _) Hne. by apply put_all_other. Qed.

(** What an event does to the map, by the key it may assign under. *)
Lemma serve_puts ev sv sv' r :
  serve ev sv = Some (sv', r) ->
  match event_key sv ev with
  | Some id => puts id (proc sv) (proc sv')
  | None =>
      writes (proc sv') = writes (proc sv) /\
      buildStatuses (proc sv') = buildStatuses (proc sv)
  end.
Proof.
  destruct ev as [[config|] uuid | id | i]; cbn [serve event_key].
  - pose proof (triggerBuild_puts config uuid (proc sv)) as H.
    rewrite triggerBuild_loaded in *. by intros [= <- _].
  - rewrite triggerBuild_not_loaded. by intros [= <- _].
  - unfold checkStatus, bind, store_get, ret.
    destruct (buildStatuses (proc sv) !! id); by intros [= <- _].
  - destruct (goroutines sv !! i) as [t|] eqn:Ht; cbn [fmap option_fmap option_map].
    2: { by intros [= <- _]. }
    destruct (task_step t (proc sv)) as [[[t'|]|msg] st'] eqn:Hstep; [| | done];
      intros [= <- _]; by apply task_step_puts in Hstep.
Qed.

Lemma serve_invariants ev sv sv' r :
  serve ev sv = Some (sv', r) ->
  latest_ok (proc sv) /\ records_ok (proc sv) ->
  latest_ok (proc sv') /\ records_ok (proc sv').
Proof.
  intros Hserve [Hl Hr]. apply serve_puts in Hserve.
  destruct (event_key sv ev) as [id|].
  - split; [by eapply latest_ok_puts | by eapply records_ok_puts].
  - destruct Hserve as [Hw Hb]. unfold latest_ok, records_ok. rewrite Hw, Hb. done.
Qed.

Lemma serve_all_invariants evs :
  forall sv sv',
    serve_all evs sv = Some sv' ->
    latest_ok (proc sv) /\ records_ok (proc sv) ->
    latest_ok (proc sv') /\ records_ok (proc sv').
Proof.
  induction evs as [|ev evs IH]; intros sv sv' Hrun Hinv.
  - by injection Hrun as <-.
  - cbn [serve_all] in Hrun.
    destruct (serve ev sv) as [[sv1 r]|] eqn:Hserve; [| done].
    eapply IH; [exact Hrun |]. by eapply serve_invariants.
Qed.

Lemma boot_invariants w : latest_ok (proc (boot w)) /\ records_ok (proc (boot w)).
Proof.
  split.
  - intros id. cbn. apply lookup_empty.
  - intros id b. cbn. by rewrite lookup_empty.
Qed.

(** X2.  In the server, after any sequence of requests and goroutine
    steps, every record in the map carries the key it is stored under as
    its [ID], its [Status] is one of In Progress, Success and Failed, never
    Pending, and GET /status/{id} answers with that record. *)
Theorem stored_records_well_formed w evs sv id b :
  serve_all evs (boot w) = Some sv ->
  buildStatuses (proc sv) !! id = Some b ->
  ID b = id /\
  (Status b = "In Progress" \/ Status b = "Success" \/ Status b = "Failed") /\
  Status b <> "Pending" /\
  serve (Query id) sv = Some (sv, Some (StatusJSON b)).
Proof.
  intros Hrun Hb.
  destruct (serve_all_invariants evs _ _ Hrun (boot_invariants w)) as [_ Hr].
  destruct (Hr id b Hb) as [Hid Hst].
  split; [done |]. split; [done |]. split.
  - destruct Hst as [-> | [-> | ->]]; discriminate.
  - cbn [serve]. unfold checkStatus, bind, store_get, ret. rewrite Hb.
    by destruct sv.
Qed.

(** X3.  A request or a goroutine step changes at most one record of the
    map: that of the build it triggers, or that of the goroutine it lets
    run.  A status query and a trigger whose configuration does not load
    change none. *)
Theorem serve_touches_one_record ev sv sv' r id :
  serve ev sv = Some (sv', r) ->
  event_key sv ev <> Some id ->
  buildStatuses (proc sv') !! id = buildStatuses (proc sv) !! id.
Proof.
  intros Hserve Hkey. apply serve_puts in Hserve.
  destruct (event_key sv ev) as [id'|].
  - eapply puts_other; [exact Hserve | congruence].
  - destruct Hserve as [_ ->]. done.
Qed.

Lemma last_replicate_S {A} n (x : A) : last (replicate (S n) x) = Some x.
Proof.
  induction n as [|n IH]; [done |].
  change (replicate (S (S n)) x) with (x :: replicate (S n) x).
  rewrite last_cons, IH. done.
Qed.

Lemma last_map {A B} (f : A -> B) (l : list A) : last (map f l) = f <$> last l.
Proof.
  induction l as [|x [|y l] IH]; [done | done |].
  change (map f (x :: y :: l)) with (f x :: map f (y :: l)).
  by rewrite !last_cons_cons.
Qed.

Lemma live_history_last pc h :
  live_history pc h ->
  last h = Some (match pc with AfterLoop (Some _) => "Failed" | _ => "In Progress" end).
Proof.
  destruct pc as [rest|[e|]]; intros [n ->].
  - apply last_replicate_S.
  - apply last_snoc.
  - apply last_replicate_S.
Qed.

Lemma ended_history_last h s :
  ended_history h -> last h = Some s -> s = "Success" \/ s = "Failed".
Proof.
  intros [-> | [n [-> | ->]]]; [done | |].
  - rewrite last_snoc. intros [= <-]. by left.
  - rewrite (last_app_cons _ ["Failed"] "Failed"). cbn. intros [= <-]. by right.
Qed.

(** X4.  In the server, when no identifier is handed out twice, the
    status of a record tells where its goroutine is.  While the goroutine
    is in the loop of [ExecutePipeline], or has left it with a nil error
    and not yet made its last assignment, the status is In Progress; when
    [ExecutePipeline] has returned an error, it is Failed.  Once the
    goroutine is gone the status is Success or Failed, never In Progress:
    Success is only ever reported for a build that is over. *)
Theorem status_follows_goroutine w evs sv id b :
  NoDup (triggered_ids evs) ->
  serve_all evs (boot w) = Some sv ->
  buildStatuses (proc sv) !! id = Some b ->
  (forall t, t ∈ goroutines sv -> task_id t = id ->
     Status b =
       match task_pc t with
       | AfterLoop (Some _) => "Failed"
       | _ => "In Progress"
       end) /\
  (id ∉ (task_id <$> goroutines sv) ->
   Status b = "Success" \/ Status b = "Failed").
Proof.
  intros Hnd Hrun Hb.
  destruct (serve_all_invariants evs _ _ Hrun (boot_invariants w)) as [Hl _].
  destruct (serve_all_histories evs _ _ [] (boot_histories w) Hnd Hrun)
    as (_ & _ & _ & Hlive & Hend).
  assert (Hlast : last (history (proc sv) id) = Some (Status b)).
  { unfold history. rewrite last_map, <- Hl, Hb. done. }
  split.
  - intros t Ht <-. apply Hlive, live_history_last in Ht.
    rewrite Hlast in Ht. by injection Ht.
  - intros Hout. eapply ended_history_last; [by apply Hend | exact Hlast].
Qed.

Lemma run_all_app w pre rest :
  run_all w (pre ++ rest) =
    match run_all w pre with
    | Some w1 => run_all w1 rest
    | None => None
    end.
Proof.
  revert w. induction pre as [|s pre IH]; intros w; [done |].
  cbn [app run_all]. destruct (Cmd s) as [|name args]; [done |].
  destruct (CombinedOutput w name args) as [w' [out [e|]]]; [done | apply IH].
Qed.

Lemma run_all_stops w pre step post w1 :
  run_all w pre = Some w1 ->
  (exists output err w2, fails_with w1 step output err w2) \/ Cmd step = [] ->
  run_all w (pre ++ step :: post) = None.
Proof.
  intros Hpre Hstop. rewrite run_all_app, Hpre. cbn [run_all].
  destruct Hstop as [(out & e & w2 & name & args & -> & ->) | ->]; done.
Qed.

Lemma put_all_lookup id (m : gmap string BuildStatus) ws :
  put_all id m ws !! id =
    match last ws with
    | Some b => Some b
    | None => m !! id
    end.
Proof.
  induction ws as [|b ws _] using rev_ind; [done |].
  by rewrite put_all_last, last_snoc.
Qed.

(** The record a build leaves, by the way its pipeline went. *)
Lemma run_build_outcome steps id st :
  let r := run_build (Some (mkPipelineConfig steps)) id st in
  (is_Some (run_all (world st) steps) /\
   fst r = Returned (BuildTriggered id) /\
   buildStatuses (snd r) !! id = Some (final_record id None)) \/
  (run_all (world st) steps = None /\
   fst r = Returned (BuildTriggered id) /\
   exists err, buildStatuses (snd r) !! id = Some (final_record id (Some err))) \/
  (run_all (world st) steps = None /\
   fst r = Panicked bounds_panic /\
   exists b, buildStatuses (snd r) !! id = Some b /\ Status b = "In Progress").
Proof.
  cbv zeta. rewrite run_build_loaded. cbn [Pipeline].
  set (st0 := snd (triggerBuild (Some (mkPipelineConfig steps)) id st)).
  destruct (run_all_cases steps (world st))
    as [[w1 Hok] | (pre & step & post & w1 & -> & Hpre & Hstop)].
  - left. split; [by eexists |].
    destruct (ExecutePipeline_all_ok steps id st0 w1 Hok) as (st1 & Hexec & _).
    rewrite (run_goroutine_returned (mkGoroutine id steps) st0 _ _ Hexec).
    split; [done |]. apply lookup_insert_eq.
  - right. pose proof (run_all_stops _ _ _ post _ Hpre Hstop) as Hnone.
    destruct Hstop as [(out & e & w2 & Hf) | HC].
    + left. split; [done |].
      destruct (ExecutePipeline_fail pre step post id st0 w1 out e w2 Hpre Hf)
        as (st1 & Hexec & _).
      rewrite (run_goroutine_returned (mkGoroutine id _) st0 _ _ Hexec).
      split; [done |]. exists e. apply lookup_insert_eq.
    + right. split; [done |].
      destruct (ExecutePipeline_panic pre step post id st0 w1 Hpre HC)
        as (st1 & Hexec & _ & Hm & _).
      rewrite (run_goroutine_panicked (mkGoroutine id _) st0 _ _ Hexec).
      split; [done |]. cbn [snd]. rewrite Hm, put_all_lookup.
      subst st0. rewrite triggerBuild_loaded. cbn [snd buildStatuses].
      rewrite lookup_insert_eq.
      destruct (last (map (progress_record id) pre)) as [b|] eqn:Hlast.
      * exists b. split; [done |].
        apply last_Some_elem_of, list_elem_of_fmap in Hlast as (s & -> & _). done.
      * by eexists.
Qed.

(** X5.  The record a build leaves has status Success exactly when every
    step of the pipeline came back with a nil error.  When the build
    returns otherwise the status is Failed, and when it panics the record
    is left In Progress. *)
Theorem success_iff_all_steps_succeed steps id st o st2 b :
  run_build (Some (mkPipelineConfig steps)) id st = (o, st2) ->
  buildStatuses st2 !! id = Some b ->
  (Status b = "Success" <-> is_Some (run_all (world st) steps)) /\
  (forall resp, o = Returned resp -> Status b = "Success" \/ Status b = "Failed") /\
  (forall msg, o = Panicked msg -> Status b = "In Progress").
Proof.
  intros Hrun Hb. pose proof (run_build_outcome steps id st) as Hout.
  cbv zeta in Hout. rewrite Hrun in Hout. cbn [fst snd] in Hout. rewrite Hb in Hout.
  destruct Hout as [(Hok & -> & [= ->]) | [(Hnone & -> & e & [= ->])
                                          | (Hnone & -> & b' & [= <-] & Hst)]].
  - split; [done |]. split; [by left | done].
  - split; [| split; [by right | done]].
    split; [done |]. rewrite Hnone. by intros [? ?].
  - rewrite Hst. split; [| split; [done | done]].
    split; [done |]. rewrite Hnone. by intros [? ?].
Qed.

(** X6.  Whatever way [ExecutePipeline] ends, by returning nil, by
    returning an error or by panicking, the commands it has handed to the
    operating system are those of the first [n] steps, once each and in
    the order of the pipeline, and [n] is the number of steps when it
    returns nil. *)
Theorem commands_are_a_prefix steps id st :
  exists n,
    n <= length steps /\
    spawned (snd (ExecutePipeline steps id st)) = spawned st ++ map Cmd (take n steps) /\
    (fst (ExecutePipeline steps id st) = Returned None -> n = length steps).
Proof.
  destruct (run_all_cases steps (world st))
    as [[w1 Hok] | (pre & step & post & w1 & -> & Hpre & [(out & e & w2 & Hf) | HC])].
  - destruct (ExecutePipeline_all_ok steps id st w1 Hok) as (st1 & -> & _ & _ & _ & Hsp).
    exists (length steps). rewrite firstn_all. done.
  - destruct (ExecutePipeline_fail pre step post id st w1 out e w2 Hpre Hf)
      as (st1 & -> & _ & _ & _ & Hsp).
    exists (length (pre ++ [step])). rewrite (cons_middle step pre post), app_assoc.
    rewrite take_app_length. cbn [snd fst].
    split; [rewrite !length_app; lia |]. split; [by rewrite map_app | done].
  - destruct (ExecutePipeline_panic pre step post id st w1 Hpre HC)
      as (st1 & -> & _ & _ & _ & Hsp).
    exists (length pre). rewrite take_app_length. cbn [snd fst].
    split; [rewrite length_app; lia |]. done.
Qed.

Lemma run_task_prefix pre id :
  forall st w1 rest,
    run_all (world st) pre = Some w1 ->
    exists st1,
      world st1 = w1 /\
      buildStatuses st1 = put_all id (buildStatuses st) (map (progress_record id) pre) /\
      writes st1 = writes st ++ map (progress_record id) pre /\
      run_task (length pre) (mkTask id (InLoop (pre ++ rest))) st =
        (Returned (Some (mkTask id (InLoop rest))), st1).
Proof.
  induction pre as [|step pre IH]; intros st w1 rest Hrun.
  - injection Hrun as <-. exists st. cbn [map put_all foldl]. rewrite !app_nil_r. done.
  - cbn [run_all] in Hrun.
    destruct (Cmd step) as [|name args] eqn:HC; [done |].
    destruct (CombinedOutput (world st) name args) as [w' [output [err|]]] eqn:HO;
      [done |].
    pose proof (step_body_ok id step st name args w' output HC HO) as Hstep.
    set (st' := mkState w' (<[id := progress_record id step]> (buildStatuses st))
                  (writes st ++ [progress_record id step])
                  (spawned st ++ [Cmd step])
                  ((stderr st ++ ["Executing step: " +:+ Name step])
                     ++ ["Output of step " +:+ Name step +:+ ": " +:+ output])) in *.
    destruct (IH st' w1 rest Hrun) as (st1 & Hw & Hm & Hws & Hrest).
    exists st1. split; [done |]. split; [by rewrite Hm |].
    split; [rewrite Hws; cbn [writes st' map]; by rewrite <- app_assoc |].
    cbn [length run_task app task_step task_pc task_id].
    unfold bind. rewrite Hstep. unfold ret at 1. exact Hrest.
Qed.

(** X7.  When the first [k + 1] steps have come back with a nil error,
    the goroutine is [k + 1] steps on, and GET /status/{id} then answers In
    Progress with the entry of the step completed last, and of that step
    only. *)
Theorem progress_shows_last_step pre step rest id st w1 :
  run_all (world st) (pre ++ [step]) = Some w1 ->
  exists st1,
    run_task (S (length pre)) (spawn (mkGoroutine id (pre ++ step :: rest))) st =
      (Returned (Some (mkTask id (InLoop rest))), st1) /\
    checkStatus id st1 =
      (Returned
         (StatusJSON
            {| ID := id;
               Status := "In Progress";
               Logs := "Step " +:+ Name step +:+ " completed successfully" |}),
       st1).
Proof.
  intros Hrun.
  destruct (run_task_prefix (pre ++ [step]) id st w1 rest Hrun)
    as (st1 & _ & Hm & _ & Htask).
  exists st1. split.
  - rewrite length_app, Nat.add_1_r, <- app_assoc in Htask. exact Htask.
  - unfold checkStatus, bind, store_get, ret.
    rewrite Hm, map_app. cbn [map]. rewrite put_all_last. done.
Qed.

Lemma run_task_add k m t st a st0 :
  run_task k t st = (Returned (Some a), st0) ->
  run_task (k + m) t st = run_task m a st0.
Proof.
  revert t st. induction k as [|k IH]; intros t st.
  - cbn [run_task]. unfold ret. by intros [= -> ->].
  - cbn [run_task Nat.add]. unfold bind.
    destruct (task_step t st) as [[[t'|]|msg] st']; [apply IH | done | done].
Qed.

(** X8.  When a step fails after [k] steps that succeeded, the goroutine
    is, [k + 1] steps on, past the loop with the error, and GET
    /status/{id} answers Failed with the name of the step and what its
    command printed.  The next step of the goroutine is its last, and from
    then on the answer is Failed with the summary. *)
Theorem failure_visible_until_goroutine_ends pre step rest id st w1 output err w2 :
  run_all (world st) pre = Some w1 ->
  fails_with w1 step output err w2 ->
  exists st1 st2,
    run_task (S (length pre)) (spawn (mkGoroutine id (pre ++ step :: rest))) st =
      (Returned (Some (mkTask id (AfterLoop (Some err)))), st1) /\
    checkStatus id st1 =
      (Returned
         (StatusJSON
            {| ID := id;
               Status := "Failed";
               Logs := "Step " +:+ Name step +:+ " failed: " +:+ output |}),
       st1) /\
    task_step (mkTask id (AfterLoop (Some err))) st1 = (Returned None, st2) /\
    checkStatus id st2 =
      (Returned
         (StatusJSON
            {| ID := id;
               Status := "Failed";
               Logs := "Pipeline completed with status: Failed" |}),
       st2).
Proof.
  intros Hpre Hfail.
  destruct (run_task_prefix pre id st w1 (step :: rest) Hpre)
    as (st0 & <- & _ & _ & Htask).
  pose proof (step_body_fail id step st0 w2 output err Hfail) as Hstep.
  eexists _, _. split; [| split; [| split]].
  - unfold spawn. cbn [go_id go_steps].
    rewrite <- Nat.add_1_r, (run_task_add _ 1 _ _ _ _ Htask).
    cbn [run_task task_step task_pc task_id]. unfold bind. rewrite Hstep.
    reflexivity.
  - unfold checkStatus, bind, store_get, ret. cbn [buildStatuses].
    rewrite lookup_insert_eq. done.
  - reflexivity.
  - unfold checkStatus, bind, store_get, ret. cbn [buildStatuses task_id].
    rewrite lookup_insert_eq. done.
Qed.

(** An event neither revives the goroutine of a build that is over nor
    assigns under its key, as long as fresh builds get fresh identifiers. *)
Lemma serve_keeps_finished ev sv sv' r ids id :
  store_tracks sv ids ->
  (forall uuid, uuid ∈ triggered_ids [ev] -> uuid ∉ ids) ->
  id ∈ ids ->
  id ∉ (task_id <$> goroutines sv) ->
  serve ev sv = Some (sv', r) ->
  (id ∉ (task_id <$> goroutines sv')) /\
  buildStatuses (proc sv') !! id = buildStatuses (proc sv) !! id.
Proof.
  intros [_ Hg] Hfresh Hid Hout Hserve.
  assert (Hkey : event_key sv ev <> Some id).
  { destruct ev as [[config|] uuid | q | i]; cbn [event_key]; [| done | done |].
    - intros [= ->]. apply (Hfresh id); [apply list_elem_of_here | done].
    - destruct (goroutines sv !! i) as [t|] eqn:Ht; [| done].
      cbn. intros [= <-]. apply Hout, list_elem_of_fmap. exists t.
      split; [done |]. by eapply list_elem_of_lookup_2. }
  split.
  - destruct ev as [[config|] uuid | q | i]; cbn [serve] in Hserve.
    + rewrite triggerBuild_loaded in Hserve. injection Hserve as <- _.
      cbn [goroutines option_list fmap option_fmap option_map].
      rewrite fmap_app. apply not_elem_of_app. split; [done |].
      cbn. intros ->%list_elem_of_singleton. by apply Hkey.
    + rewrite triggerBuild_not_loaded in Hserve. injection Hserve as <- _.
      cbn [goroutines option_list fmap option_fmap option_map].
      by rewrite app_nil_r.
    + unfold checkStatus, bind, store_get, ret in Hserve.
      destruct (buildStatuses (proc sv) !! q); by injection Hserve as <- _.
    + destruct (goroutines sv !! i) as [t|] eqn:Ht.
      2: { by injection Hserve as <- _. }
      destruct (sched_split _ _ _ Ht) as (l1 & l2 & Hl & Hins & Hdel).
      rewrite Hl, fmap_app, fmap_cons in Hout.
      destruct (task_step t (proc sv)) as [[[t'|]|msg] st'] eqn:Hstep; [| | done];
        injection Hserve as <- _; cbn [goroutines];
        apply task_step_store in Hstep as [_ Hsame].
      * rewrite Hins, fmap_app, fmap_cons, (Hsame t' eq_refl). done.
      * rewrite Hdel, fmap_app. intros Hin. apply Hout. by apply elem_of_app_middle.
  - apply serve_puts in Hserve. destruct (event_key sv ev) as [id'|].
    + eapply puts_other; [exact Hserve | congruence].
    + destruct Hserve as [_ ->]. done.
Qed.

Lemma serve_all_keeps_finished evs :
  forall sv sv' ids id,
    store_tracks sv ids ->
    NoDup (ids ++ triggered_ids evs) ->
    id ∈ ids ->
    id ∉ (task_id <$> goroutines sv) ->
    serve_all evs sv = Some sv' ->
    buildStatuses (proc sv') !! id = buildStatuses (proc sv) !! id.
Proof.
  induction evs as [|ev evs IH]; intros sv sv' ids id Htr Hnd Hid Hout Hrun.
  - by injection Hrun as <-.
  - cbn [serve_all] in Hrun.
    destruct (serve ev sv) as [[sv1 r]|] eqn:Hserve; [| done].
    rewrite triggered_ids_cons, app_assoc in Hnd.
    assert (Hfresh : forall uuid, uuid ∈ triggered_ids [ev] -> uuid ∉ ids).
    { intros uuid Hin Hin'.
      apply NoDup_app in Hnd as (Hnd & _ & _).
      apply NoDup_app in Hnd as (_ & Hsep & _). by apply (Hsep uuid). }
    destruct (serve_keeps_finished _ _ _ _ _ _ Htr Hfresh Hid Hout Hserve)
      as [Hout1 <-].
    eapply (IH sv1 sv' (ids ++ triggered_ids [ev])); [| done | | done | done].
    + by eapply serve_tracks.
    + apply elem_of_app. by left.
Qed.

Lemma triggered_ids_app evs evs' :
  triggered_ids (evs ++ evs') = triggered_ids evs ++ triggered_ids evs'.
Proof.
  induction evs as [|ev evs IH]; [done |].
  cbn [app]. by rewrite triggered_ids_cons, (triggered_ids_cons ev evs), IH, app_assoc.
Qed.

(** X9.  In the server, when no identifier is handed out twice, the
    record of a build whose goroutine is gone is never assigned again:
    whatever requests and goroutine steps follow, the map holds the same
    record under its identifier. *)
Theorem finished_record_never_changes w evs evs' sv sv' id :
  NoDup (triggered_ids (evs ++ evs')) ->
  serve_all evs (boot w) = Some sv ->
  id ∈ triggered_ids evs ->
  id ∉ (task_id <$> goroutines sv) ->
  serve_all evs' sv = Some sv' ->
  buildStatuses (proc sv') !! id = buildStatuses (proc sv) !! id.
Proof.
  intros Hnd Hrun Hid Hout Hrun'.
  pose proof (serve_all_tracks evs _ _ _ (boot_tracks w) Hrun) as Htr.
  cbn [app] in Htr.
  rewrite triggered_ids_app in Hnd.
  by eapply serve_all_keeps_finished.
Qed.

End EngineFacts.

(** * The properties on the example system *)


(** C1 fails as stated: in the three-step example (one step succeeds, the
    second fails) the record the build leaves is in phase Failed, but its
    log is the one summary entry, not two entries, and that entry does not
    name the failing step. *)
Lemma failing_step_record_counterexample :
  let st2 := snd (run_build (Some (mkPipelineConfig compile_test_deploy)) "b1" fresh) in
  run_all (R := sh_runner) [] [compile_step] = Some [] /\
  fails_with (R := sh_runner) [] test_step "" exit1 [] /\
  buildStatuses st2 !! "b1" =
    Some (mkBuildStatus "b1" "Failed" "Pipeline completed with status: Failed") /\
  mentions "test" "Pipeline completed with status: Failed" = false /\
  ~ (exists rec entry,
       buildStatuses st2 !! "b1" = Some rec /\
       Status rec = "Failed" /\
       length (log_entries rec) = 1 + 1 /\
       last (log_entries rec) = Some entry /\
       mentions "test" entry = true).
Proof.
  split; [reflexivity |].
  split; [exists "false", []; split; reflexivity |].
  split; [vm_compute; reflexivity |].
  split; [vm_compute; reflexivity |].
  intros (rec & entry & Hrec & _ & Hlen & _).
  vm_compute in Hrec. injection Hrec as <-.
  vm_compute in Hlen. discriminate Hlen.
Qed.

Lemma failing_step_record_witness :
  exists st1 st2 final,
    ExecutePipeline compile_test_deploy "b1"
      (snd (triggerBuild (Some (mkPipelineConfig compile_test_deploy)) "b1" fresh)) =
      (Returned (Some exit1), st1) /\
    buildStatuses st1 !! "b1" =
      Some (mkBuildStatus "b1" "Failed" "Step test failed: ") /\
    run_build (Some (mkPipelineConfig compile_test_deploy)) "b1" fresh =
      (Returned (BuildTriggered "b1"), st2) /\
    buildStatuses st2 !! "b1" = Some final /\
    Status final = "Failed".
Proof.
  destruct (failing_step_record (R := sh_runner)
              [compile_step] test_step [deploy_step] "b1" fresh [] "" exit1 [])
    as (st1 & st2 & final & Hexec & _ & _ & _ & Hrec & _ & _ & Hrun & Hfin & Hst).
  - reflexivity.
  - exists "false", []. split; reflexivity.
  - exists st1, st2, final. repeat split; assumption.
Defined.

(** C2 fails as stated: in the one-step example the record the build
    leaves is in phase Success, but its log is the one summary entry, not
    two entries, and the step is not named in it. *)
Lemma all_steps_succeed_counterexample :
  let st2 := snd (run_build (Some (mkPipelineConfig build_only)) "b1" fresh) in
  run_all (R := sh_runner) [] build_only = Some [] /\
  buildStatuses st2 !! "b1" =
    Some (mkBuildStatus "b1" "Success" "Pipeline completed with status: Success") /\
  mentions "build" "Pipeline completed with status: Success" = false /\
  ~ (exists rec,
       buildStatuses st2 !! "b1" = Some rec /\
       Status rec = "Success" /\
       length (log_entries rec) = length build_only + 1).
Proof.
  split; [reflexivity |].
  split; [vm_compute; reflexivity |].
  split; [vm_compute; reflexivity |].
  intros (rec & Hrec & _ & Hlen).
  vm_compute in Hrec. injection Hrec as <-.
  vm_compute in Hlen. discriminate Hlen.
Qed.

Lemma all_steps_succeed_witness :
  exists st2,
    run_build (Some (mkPipelineConfig build_only)) "b1" fresh =
      (Returned (BuildTriggered "b1"), st2) /\
    writes st2 =
      [ mkBuildStatus "b1" "In Progress" "";
        mkBuildStatus "b1" "In Progress" "Step build completed successfully";
        mkBuildStatus "b1" "Success" "Pipeline completed with status: Success" ] /\
    buildStatuses st2 !! "b1" =
      Some (mkBuildStatus "b1" "Success" "Pipeline completed with status: Success").
Proof.
  destruct (all_steps_succeed_record (R := sh_runner) build_only "b1" fresh [])
    as (st2 & Hrun & Hws & _ & _ & Hrec & _).
  - reflexivity.
  - exists st2. repeat split; assumption.
Defined.

(** C3 on a step that prints a line and exits with status 1.
    [ExecutePipeline] stores the record that shows the line, and the
    assignment at the end of the goroutine then replaces it: the record the
    build leaves is in phase Failed and its log is the summary, in which
    the line does not occur. *)
Theorem failed_step_output_lost :
  let config := mkPipelineConfig noisy_test in
  let output := "boom" +:+ nl in
  let st0 := snd (triggerBuild (Some config) "b1" fresh) in
  fails_with (R := sh_runner) [] noisy_step output exit1 [] /\
  (exists st1,
     ExecutePipeline noisy_test "b1" st0 = (Returned (Some exit1), st1) /\
     buildStatuses st1 !! "b1" = Some (failed_record "b1" noisy_step output) /\
     mentions output (Logs (failed_record "b1" noisy_step output)) = true) /\
  (exists st2,
     run_build (Some config) "b1" fresh = (Returned (BuildTriggered "b1"), st2) /\
     buildStatuses st2 !! "b1" =
       Some (mkBuildStatus "b1" "Failed" "Pipeline completed with status: Failed") /\
     mentions output "Pipeline completed with status: Failed" = false /\
     mentions "boom" "Pipeline completed with status: Failed" = false).
Proof.
  cbv zeta.
  split; [exists "sh", ["-c"; "echo boom; exit 1"]; split; reflexivity |].
  split.
  - eexists. split; [vm_compute; reflexivity |].
    split; [vm_compute; reflexivity | apply failed_record_shows_output].
  - eexists. split; [vm_compute; reflexivity |].
    split; [vm_compute; reflexivity |].
    split; vm_compute; reflexivity.
Qed.

(** A command that cannot be started is reported by the same record as one
    that exits with a non-zero status. *)
Lemma missing_tool_reported_alike :
  exists st1 err,
    ExecutePipeline missing_tool "b1" fresh = (Returned (Some err), st1) /\
    err = not_found "golint" /\
    buildStatuses st1 !! "b1" = Some (mkBuildStatus "b1" "Failed" "Step lint failed: ").
Proof.
  eexists _, _. split; [vm_compute; reflexivity |].
  split; [reflexivity | vm_compute; reflexivity].
Qed.

Lemma steps_in_order_fail_fast_witness :
  exists st2,
    ExecutePipeline compile_test_deploy "b1" fresh = (Returned (Some exit1), st2) /\
    spawned st2 = [["true"]; ["false"]] /\
    world st2 = [].
Proof.
  destruct (steps_in_order_fail_fast (R := sh_runner)
              [compile_step] [test_step; deploy_step] "b1" fresh [])
    as (o & st2 & Hexec & Hsp & _ & _ & Hfail).
  - reflexivity.
  - right. exists test_step, [deploy_step], "", exit1, [].
    split; [reflexivity |]. exists "false", []. split; reflexivity.
  - destruct (Hfail test_step [deploy_step] "" exit1 []) as [-> Hw].
    + reflexivity.
    + exists "false", []. split; reflexivity.
    + exists st2. split; [exact Hexec |]. split; [exact Hsp | exact Hw].
Defined.

Lemma phases_move_one_way_witness :
  let run := run_build (Some (mkPipelineConfig compile_test_deploy)) "b1" fresh in
  (exists ws,
     writes (snd run) = ws /\
     map Status ws = ["In Progress"; "In Progress"; "Failed"; "Failed"] /\
     phase_chain (map Status ws) = true) /\
  (exists sv,
     serve_all (R := sh_runner) session (boot (R := sh_runner) []) = Some sv /\
     history (proc sv) "b1" = ["In Progress"; "In Progress"; "Failed"; "Failed"] /\
     phase_chain (history (proc sv) "b1") = true).
Proof.
  cbv zeta. split.
  - destruct (proj1 (phases_move_one_way (R := sh_runner))
                (Some (mkPipelineConfig compile_test_deploy)) "b1" fresh
                (fst (run_build (Some (mkPipelineConfig compile_test_deploy)) "b1" fresh))
                (snd (run_build (Some (mkPipelineConfig compile_test_deploy)) "b1" fresh)))
      as (ws & Hws & _ & Hchain & _ & Hfail).
    + vm_compute. reflexivity.
    + exists ws. split; [exact Hws |]. split; [| exact Hchain].
      apply (Hfail [compile_step] test_step [deploy_step] [] "" exit1 []).
      * reflexivity.
      * reflexivity.
      * exists "false", []. split; reflexivity.
  - set (r := serve_all (R := sh_runner) session (boot (R := sh_runner) [])).
    assert (Hrun : r = Some (default (boot (R := sh_runner) []) r))
      by (vm_compute; reflexivity).
    exists (default (boot (R := sh_runner) []) r).
    split; [exact Hrun |]. split; [vm_compute; reflexivity |].
    apply (proj2 (phases_move_one_way (R := sh_runner)) [] session _ "b1").
    + vm_compute. apply NoDup_singleton.
    + exact Hrun.
Defined.

Lemma status_not_found_iff_never_triggered_witness :
  exists sv b,
    serve_all (R := sh_runner) session (boot (R := sh_runner) []) = Some sv /\
    triggered_ids session = ["b1"] /\
    serve (Query "b2") sv = Some (sv, Some (HttpError 404 "Build ID not found")) /\
    buildStatuses (proc sv) !! "b1" = Some b /\
    serve (Query "b1") sv = Some (sv, Some (StatusJSON b)).
Proof.
  set (r := serve_all (R := sh_runner) session (boot (R := sh_runner) [])).
  assert (Hrun : r = Some (default (boot (R := sh_runner) []) r)) by (vm_compute; reflexivity).
  destruct (status_not_found_iff_never_triggered (R := sh_runner)
              [] session (default (boot (R := sh_runner) []) r) "b2" Hrun) as [[_ Hnone] _].
  destruct (status_not_found_iff_never_triggered (R := sh_runner)
              [] session (default (boot (R := sh_runner) []) r) "b1" Hrun) as [_ Hsome].
  destruct Hsome as (b & Hb & Hq).
  { vm_compute. apply list_elem_of_here. }
  exists (default (boot (R := sh_runner) []) r), b.
  split; [exact Hrun |]. split; [reflexivity |].
  split; [| split; [exact Hb | exact Hq]].
  apply Hnone. vm_compute. intros H. inversion H as [|? ? ? H']. inversion H'.
Defined.

(** C8 fails as stated: triggered with the identifier of the finished
    build, the handler answers as for a new build, and the finished record
    is gone, replaced by the placeholder. *)
Lemma duplicate_identifier_counterexample :
  let config := mkPipelineConfig build_only in
  let r := triggerBuild (Some config) "b1" finished in
  buildStatuses finished !! "b1" =
    Some (mkBuildStatus "b1" "Success" "Pipeline completed with status: Success") /\
  fst r = Returned (BuildTriggered "b1", Some (mkGoroutine "b1" build_only)) /\
  buildStatuses (snd r) !! "b1" = Some (mkBuildStatus "b1" "In Progress" "") /\
  ~ (exists code msg,
       fst r = Returned (HttpError code msg, None) /\
       buildStatuses (snd r) !! "b1" = buildStatuses finished !! "b1").
Proof.
  cbv zeta.
  split; [vm_compute; reflexivity |].
  split; [reflexivity |].
  split; [vm_compute; reflexivity |].
  intros (code & msg & Hresp & _). discriminate Hresp.
Qed.

Lemma duplicate_identifier_overwrites_witness :
  let config := mkPipelineConfig compile_test_deploy in
  exists st1,
    triggerBuild (Some config) "b1" finished =
      (Returned (BuildTriggered "b1", Some (mkGoroutine "b1" compile_test_deploy)), st1) /\
    buildStatuses st1 !! "b1" = Some (placeholder_record "b1") /\
    buildStatuses st1 !! "b0" = buildStatuses finished !! "b0".
Proof.
  cbv zeta.
  destruct (duplicate_identifier_overwrites (R := sh_runner)
              (mkPipelineConfig compile_test_deploy) "b1" finished
              (mkBuildStatus "b1" "Success" "Pipeline completed with status: Success"))
    as (st1 & Htrig & Hrec & Hother & _).
  - vm_compute. reflexivity.
  - exists st1. split; [exact Htrig |]. split; [exact Hrec |].
    apply Hother. discriminate.
Defined.

(** C9 fails as stated: with a step that has no command the goroutine
    does not reach its last assignment.  It panics in [ExecutePipeline],
    and the record stays the placeholder, in phase In Progress.  In the
    server the panic ends the process, so that the goroutine of another
    build, whose steps are all in order, does not make its last assignment
    either. *)
Lemma goroutine_terminal_write_counterexample :
  let st0 := snd (triggerBuild (Some (mkPipelineConfig no_command)) "b1" fresh) in
  let r := run_goroutine (mkGoroutine "b1" no_command) st0 in
  (exists msg, fst r = Panicked msg) /\
  writes (snd r) = writes st0 /\
  buildStatuses (snd r) !! "b1" = Some (mkBuildStatus "b1" "In Progress" "") /\
  ~ (exists err,
       buildStatuses (snd r) !! "b1" = Some (final_record "b1" err)) /\
  (forall evs,
     serve_all (crash_session ++ evs) (boot (R := sh_runner) []) = None).
Proof.
  cbv zeta.
  split; [eexists; vm_compute; reflexivity |].
  split; [vm_compute; reflexivity |].
  split; [vm_compute; reflexivity |].
  split.
  - intros (err & Hrec). vm_compute in Hrec. destruct err; discriminate Hrec.
  - intros evs. vm_compute. reflexivity.
Qed.

Lemma goroutine_terminal_write_witness :
  (exists st2,
     run_goroutine (mkGoroutine "b1" compile_test_deploy) fresh = (Returned tt, st2) /\
     buildStatuses st2 !! "b1" =
       Some (mkBuildStatus "b1" "Failed" "Pipeline completed with status: Failed")) /\
  (exists st2,
     run_goroutine (mkGoroutine "b1" fail_then_empty) fresh = (Returned tt, st2) /\
     buildStatuses st2 !! "b1" =
       Some (mkBuildStatus "b1" "Failed" "Pipeline completed with status: Failed")).
Proof.
  split.
  - destruct (goroutine_terminal_write (R := sh_runner) compile_test_deploy "b1" fresh
                (Some exit1) (snd (ExecutePipeline compile_test_deploy "b1" fresh)))
      as [(st2 & Hgo & _ & _ & Hrec) _].
    + vm_compute. reflexivity.
    + exists st2. split; [exact Hgo | exact Hrec].
  - destruct (goroutine_terminal_write (R := sh_runner) fail_then_empty "b1" fresh
                (Some exit1) (snd (ExecutePipeline fail_then_empty "b1" fresh)))
      as [(st2 & Hgo & _ & _ & Hrec) _].
    + vm_compute. reflexivity.
    + exists st2. split; [exact Hgo | exact Hrec].
Defined.

(** C10 fails as stated.  The pipeline [fail_then_empty] contains a step
    with an empty command vector, and [ExecutePipeline] returns on it: its
    first step fails, and the step with no command is never reached.  And
    where the panic happens, on a pipeline made of that step alone, the
    standard implementation raises the run-time error of the slice
    expression [step.Cmd[1:]], not that of the index expression. *)
Lemma empty_command_panics_counterexample :
  Exists (fun step => Cmd step = []) fail_then_empty /\
  ~ Forall (fun step => Cmd step <> []) fail_then_empty /\
  (exists st1,
     ExecutePipeline fail_then_empty "b1" fresh = (Returned (Some exit1), st1)) /\
  (forall msg st1,
     ExecutePipeline fail_then_empty "b1" fresh <> (Panicked msg, st1)) /\
  fst (ExecutePipeline no_command "b1" fresh) = Panicked slice_bounds_out_of_range /\
  fst (ExecutePipeline no_command "b1" fresh) <> Panicked index_out_of_range.
Proof.
  split; [apply Exists_cons_tl, Exists_cons_hd; reflexivity |].
  split.
  { intros H. apply Forall_cons in H as [_ H]. apply Forall_cons in H as [H _].
    by apply H. }
  split; [eexists; vm_compute; reflexivity |].
  split; [intros msg st1 H; vm_compute in H; discriminate H |].
  split; [vm_compute; reflexivity |].
  intros H. vm_compute in H. discriminate H.
Qed.

Lemma empty_command_panics_witness :
  (exists msg st1,
     ExecutePipeline (compile_step :: no_command ++ [deploy_step]) "b1" fresh =
       (Panicked msg, st1) /\
     (msg = index_out_of_range \/ msg = slice_bounds_out_of_range) /\
     spawned st1 = [["true"]]) /\
  (exists st1,
     ExecutePipeline fail_then_empty "b1" fresh = (Returned (Some exit1), st1)) /\
  (exists err st1,
     ExecutePipeline compile_test_deploy "b1" fresh = (Returned err, st1)).
Proof.
  split; [| split].
  - destruct (empty_command_panics (R := sh_runner)
                (compile_step :: no_command ++ [deploy_step]) "b1" fresh)
      as (_ & Hpanic & _).
    destruct (Hpanic [compile_step] (mkPipelineStep "noop" []) [deploy_step] [])
      as (st1 & Hexec & _ & Hsp); [reflexivity .. |].
    exists (bounds_panic (Runner := sh_runner)), st1.
    split; [exact Hexec |]. split; [apply bounds_panic_spec | exact Hsp].
  - destruct (empty_command_panics (R := sh_runner) fail_then_empty "b1" fresh)
      as (_ & _ & Hfail & _).
    apply (Hfail [] test_step [mkPipelineStep "noop" []] [] "" exit1 []).
    + reflexivity.
    + reflexivity.
    + exists "false", []. split; reflexivity.
  - destruct (empty_command_panics (R := sh_runner) compile_test_deploy "b1" fresh)
      as (_ & _ & _ & _ & Hret).
    apply Hret. repeat constructor; discriminate.
Defined.

(** * The further properties on the example system *)

Lemma stored_records_well_formed_witness :
  serve_all session_start (boot (R := sh_runner) []) = Some during_session /\
  buildStatuses (proc during_session) !! "b1" =
    Some (mkBuildStatus "b1" "In Progress" "Step compile completed successfully") /\
  serve (Query "b1") during_session =
    Some (during_session,
          Some (StatusJSON
                  (mkBuildStatus "b1" "In Progress" "Step compile completed successfully"))).
Proof.
  assert (Hrun : serve_all session_start (boot (R := sh_runner) []) = Some during_session)
    by (vm_compute; reflexivity).
  assert (Hb : buildStatuses (proc during_session) !! "b1" =
               Some (mkBuildStatus "b1" "In Progress" "Step compile completed successfully"))
    by (vm_compute; reflexivity).
  split; [exact Hrun |]. split; [exact Hb |].
  apply (stored_records_well_formed (R := sh_runner) [] session_start during_session
           "b1" _ Hrun Hb).
Defined.

Lemma serve_touches_one_record_witness :
  exists sv' r,
    serve (Trigger (Some (mkPipelineConfig build_only)) "b3") after_session = Some (sv', r) /\
    buildStatuses (proc sv') !! "b1" = buildStatuses (proc after_session) !! "b1".
Proof.
  set (ev := Trigger (Some (mkPipelineConfig build_only)) "b3").
  set (o := serve ev after_session).
  assert (Hserve : o = Some (default (after_session, None) o))
    by (vm_compute; reflexivity).
  exists (fst (default (after_session, None) o)), (snd (default (after_session, None) o)).
  rewrite <- surjective_pairing. split; [exact Hserve |].
  apply (serve_touches_one_record (R := sh_runner) ev after_session
           (fst (default (after_session, None) o))
           (snd (default (after_session, None) o)) "b1").
  - rewrite <- surjective_pairing. exact Hserve.
  - cbn. discriminate.
Defined.

Lemma status_follows_goroutine_witness :
  serve_all session_start (boot (R := sh_runner) []) = Some during_session /\
  goroutines during_session = [mkTask "b1" (InLoop [test_step; deploy_step])] /\
  exists b,
    buildStatuses (proc during_session) !! "b1" = Some b /\
    Status b = "In Progress".
Proof.
  assert (Hrun : serve_all session_start (boot (R := sh_runner) []) = Some during_session)
    by (vm_compute; reflexivity).
  assert (Hg : goroutines during_session = [mkTask "b1" (InLoop [test_step; deploy_step])])
    by (vm_compute; reflexivity).
  assert (Hb : buildStatuses (proc during_session) !! "b1" =
               Some (mkBuildStatus "b1" "In Progress" "Step compile completed successfully"))
    by (vm_compute; reflexivity).
  split; [exact Hrun |]. split; [exact Hg |].
  eexists. split; [exact Hb |].
  destruct (status_follows_goroutine (R := sh_runner) [] session_start during_session
              "b1" _ (NoDup_singleton "b1") Hrun Hb) as [Hlive _].
  apply (Hlive (mkTask "b1" (InLoop [test_step; deploy_step]))).
  - rewrite Hg. apply list_elem_of_here.
  - reflexivity.
Defined.

Lemma success_iff_all_steps_succeed_witness :
  let r := run_build (Some (mkPipelineConfig build_only)) "b1" fresh in
  buildStatuses (snd r) !! "b1" = Some (final_record "b1" None) /\
  is_Some (run_all (R := sh_runner) [] build_only).
Proof.
  cbv zeta.
  assert (Hb : buildStatuses (snd (run_build (Some (mkPipelineConfig build_only)) "b1" fresh))
                 !! "b1" = Some (final_record "b1" None))
    by (vm_compute; reflexivity).
  split; [exact Hb |].
  apply (success_iff_all_steps_succeed (R := sh_runner) build_only "b1" fresh
           _ _ (final_record "b1" None) (surjective_pairing _) Hb).
  reflexivity.
Defined.

Lemma progress_shows_last_step_witness :
  exists st1,
    run_task 1 (spawn (mkGoroutine "b1" compile_test_deploy)) fresh =
      (Returned (Some (mkTask "b1" (InLoop [test_step; deploy_step]))), st1) /\
    checkStatus "b1" st1 =
      (Returned
         (StatusJSON
            (mkBuildStatus "b1" "In Progress" "Step compile completed successfully")),
       st1).
Proof.
  apply (progress_shows_last_step (R := sh_runner)
           [] compile_step [test_step; deploy_step] "b1" fresh []).
  reflexivity.
Defined.

Lemma failure_visible_until_goroutine_ends_witness :
  exists st1 st2,
    run_task 2 (spawn (mkGoroutine "b1" compile_test_deploy)) fresh =
      (Returned (Some (mkTask "b1" (AfterLoop (Some exit1)))), st1) /\
    checkStatus "b1" st1 =
      (Returned (StatusJSON (mkBuildStatus "b1" "Failed" "Step test failed: ")), st1) /\
    task_step (mkTask "b1" (AfterLoop (Some exit1))) st1 = (Returned None, st2) /\
    checkStatus "b1" st2 =
      (Returned
         (StatusJSON (mkBuildStatus "b1" "Failed" "Pipeline completed with status: Failed")),
       st2).
Proof.
  apply (failure_visible_until_goroutine_ends (R := sh_runner)
           [compile_step] test_step [deploy_step] "b1" fresh [] "" exit1 []).
  - reflexivity.
  - exists "false", []. split; reflexivity.
Defined.

Lemma finished_record_never_changes_witness :
  exists sv',
    serve_all session_more after_session = Some sv' /\
    is_Some (buildStatuses (proc sv') !! "b3") /\
    buildStatuses (proc sv') !! "b1" = buildStatuses (proc after_session) !! "b1".
Proof.
  set (o := serve_all session_more after_session).
  assert (Hmore : o = Some (default after_session o)) by (vm_compute; reflexivity).
  exists (default after_session o).
  split; [exact Hmore |]. split; [vm_compute; by eexists |].
  apply (finished_record_never_changes (R := sh_runner) [] session session_more
           after_session (default after_session o) "b1").
  - vm_compute. apply NoDup_cons. split; [| apply NoDup_singleton].
    intros H. apply list_elem_of_singleton in H. discriminate H.
  - vm_compute. reflexivity.
  - vm_compute. apply list_elem_of_here.
  - vm_compute. apply not_elem_of_nil.
  - exact Hmore.
Defined.
